(** * freezer: the message source (freezer_source.go)

    A shallow embedding of [NewMessageSource] and
    [MessageSource.ConsumeMessages] together with the Go library
    behaviour they rely on ([io.ReadFull], [binary.LittleEndian.Uint32],
    [os.IsNotExist], [context.Context]), and the properties of the
    tail-read loop. *)

From Stdlib Require Import ZArith Lia Ascii String List.
From Stdlib.Strings Require Import Byte.
From stdpp Require Import base option list sorting strings gmap.
Import ListNotations.

Local Open Scope Z_scope.

(** ** Go values *)

(** [error] values the source can meet.  [None : option error] is Go's
    [nil] error. *)
Inductive error : Type :=
| EOF                                   (* io.EOF *)
| ErrUnexpectedEOF                      (* io.ErrUnexpectedEOF *)
| DeadlineExceeded                      (* context.DeadlineExceeded *)
| Canceled                              (* context.Canceled *)
| ErrNotExist                           (* os.ErrNotExist *)
| PathError (op path : string) (err : error)   (* *os.PathError *)
| Errorf (msg : string)                 (* the value of fmt.Errorf *)
| ErrOther (msg : string).              (* any other error value *)

#[global] Instance error_eq_dec : EqDecision error.
Proof. solve_decision. Defined.

(** [err.Error()], used by the [%v] verb of [fmt.Errorf]. *)
Fixpoint Error (e : error) : string :=
  match e with
  | EOF => "EOF"
  | ErrUnexpectedEOF => "unexpected EOF"
  | DeadlineExceeded => "context deadline exceeded"
  | Canceled => "context canceled"
  | ErrNotExist => "file does not exist"
  | PathError op path err => op +:+ " " +:+ path +:+ ": " +:+ Error err
  | Errorf msg => msg
  | ErrOther msg => msg
  end.

(** [os.IsNotExist]: unwraps a [*PathError] and compares the underlying
    error with [os.ErrNotExist]. *)
Definition IsNotExist (err : error) : bool :=
  match err with
  | ErrNotExist => true
  | PathError _ _ ErrNotExist => true
  | _ => false
  end.

(** [time.Duration] is an [int64] count of nanoseconds. *)
Definition Duration := Z.
Definition Nanosecond : Duration := 1.
Definition Microsecond : Duration := 1000 * Nanosecond.
Definition Millisecond : Duration := 1000 * Microsecond.
Definition Second : Duration := 1000 * Millisecond.

(** Go's [int] on the 64-bit platforms: two's complement wrap-around. *)
Definition maxInt : Z := 2 ^ 63 - 1.
Definition wrapInt (z : Z) : Z := (z + 2 ^ 63) mod 2 ^ 64 - 2 ^ 63.

(** [int(x)] for a [uint32] [x]: the value fits, so no wrap happens. *)
Definition int_of_uint32 (x : Z) : Z := wrapInt x.

Definition byteZ (b : byte) : Z := Z.of_N (Byte.to_N b).

#[global] Instance byte_eq_dec : EqDecision byte := Byte.byte_eq_dec.

(** [binary.LittleEndian.Uint32(b)]:
    [uint32(b[0]) | uint32(b[1])<<8 | uint32(b[2])<<16 | uint32(b[3])<<24]. *)
Definition Uint32 (b : list byte) : Z :=
  Z.lor (Z.lor (Z.lor (byteZ (nth 0 b x00))
                      (Z.shiftl (byteZ (nth 1 b x00)) 8))
               (Z.shiftl (byteZ (nth 2 b x00)) 16))
        (Z.shiftl (byteZ (nth 3 b x00)) 24).

(** ** Readers

    An [io.ReadCloser] is modelled by the answers it will give: every
    entry of [script] is the outcome of one [Read] call, the bytes it
    has ready together with the error it reports once they are handed
    out.  A [Read] into a shorter buffer takes a prefix and leaves the
    rest of the entry for the next call; when the script is used up
    every [Read] returns [(0, io.EOF)].  [close_err] is what [Close]
    returns. *)
Record ReadCloser : Type := mkReadCloser {
  script : list (list byte * option error);
  close_err : option error
}.

Definition set_script (rc : ReadCloser) (s : list (list byte * option error)) :=
  {| script := s; close_err := close_err rc |}.

(** [rc.Read(buf)] with [len(buf) = n]: the bytes stored in [buf], the
    error, and the reader afterwards. *)
Definition Read (rc : ReadCloser) (n : nat) : list byte * option error * ReadCloser :=
  match script rc with
  | [] => ([], Some EOF, rc)
  | (chunk, e) :: rest =>
      if (length chunk <=? n)%nat
      then (chunk, e, set_script rc rest)
      else (take n chunk, None, set_script rc ((drop n chunk, e) :: rest))
  end.

Definition Close (rc : ReadCloser) : option error := close_err rc.

Definition set_close (rc : ReadCloser) (e : option error) : ReadCloser :=
  {| script := script rc; close_err := e |}.

(** The loop of [io.ReadAtLeast(r, buf, min)] with [min = len(buf)]:
    [for n < min && err == nil { nn, err = r.Read(buf[n:]); n += nn }],
    then [err = nil] when [n >= min], and [io.EOF] becomes
    [io.ErrUnexpectedEOF] when some bytes were read.  [acc] is the part
    of [buf] already filled and [need] the room left in it.  The
    recursion is on the script: a [Read] either uses up an entry or
    fills the buffer. *)
Fixpoint ReadAtLeast (s : list (list byte * option error)) (acc : list byte)
    (need : nat) : (list byte + error) * list (list byte * option error) :=
  match need with
  | O => (inl acc, s)
  | S _ =>
      match s with
      | [] => (inr (if acc is [] then EOF else ErrUnexpectedEOF), [])
      | (chunk, e) :: rest =>
          if (length chunk <=? need)%nat then
            let acc' := acc ++ chunk in
            if (length chunk =? need)%nat then (inl acc', rest)
            else match e with
                 | None => ReadAtLeast rest acc' (need - length chunk)
                 | Some err =>
                     (inr (if decide (err = EOF)
                           then (if acc' is [] then EOF else ErrUnexpectedEOF)
                           else err), rest)
                 end
          else (inl (acc ++ take need chunk), (drop need chunk, e) :: rest)
      end
  end.

(** [io.ReadFull(rc, buf)] with [len(buf) = n]: either the [n] bytes
    that fill [buf], or the error. *)
Definition ReadFull (rc : ReadCloser) (n : nat) : (list byte + error) * ReadCloser :=
  let '(r, s) := ReadAtLeast (script rc) [] n in (r, set_script rc s).

(** The bytes a script hands out when read to its end. *)
Definition stream (s : list (list byte * option error)) : list byte :=
  concat (map fst s).

(** The reader over a fixed byte string (a file of an in-memory store):
    it hands out its bytes and then reports [io.EOF]. *)
Definition bytesReader (data : list byte) : ReadCloser :=
  {| script := if data is [] then [] else [(data, None)]; close_err := None |}.

(** ** Segment paths *)

(** [seqToPath] is called by [ConsumeMessages] but defined in the sink's
    file, which is missing from the sources; the definitions of this
    part follow the spec's path format,
    [root / hex2(byteN-1) / ... / hex2(byte1) / hex2(byte0)]. *)

(** Modelled from the spec: the depth of the missing [seqToPath], a
    scheme parameter, "7 byte-groups observed in practice". *)
Definition depth : nat := 7.

Definition hexDigit (d : Z) : ascii :=
  nth (Z.to_nat d) (list_ascii_of_string "0123456789abcdef") "0"%char.

(** Modelled from the spec: the [hex2] of the path format of the
    missing [seqToPath], a byte "rendered as two lowercase hex
    digits". *)
Definition hex2 (b : Z) : string :=
  String (hexDigit (b / 16)) (String (hexDigit (b mod 16)) EmptyString).

(** Byte [i] of the sequence number, [i = 0] the least significant. *)
Definition seqByte (seq : Z) (i : nat) : Z := (seq / 256 ^ Z.of_nat i) mod 256.

(** Modelled from the spec: the byte groups of the missing [seqToPath],
    "the big-endian byte decomposition of the sequence number across N
    fixed groups", most significant first. *)
Definition seqGroups (seq : Z) : list Z :=
  map (seqByte seq) (rev (List.seq 0 depth)).

Definition seqComponents (seq : Z) : list string := map hex2 (seqGroups seq).

(** The [/] of the path format. *)
Definition joinPath (root : string) (components : list string) : string :=
  fold_left (fun p c => p +:+ "/" +:+ c) components root.

(** Modelled from the spec: [seqToPath], missing from the sources, by
    the path format
    [root / hex2(byteN-1) / ... / hex2(byte1) / hex2(byte0)]: "all bytes
    but the least significant become successive directory levels under
    the root, the least-significant byte becomes the file name". *)
Definition seqToPath (root : string) (seq : Z) : string :=
  joinPath root (seqComponents seq).

(** The directory of a segment: every group but the last is a level
    under the root. *)
Definition seqDir (root : string) (seq : Z) : string :=
  joinPath root (take (depth - 1) (seqComponents seq)).

(** Reading a path component back. *)
Definition isLowerHex (a : ascii) : bool :=
  existsb (Ascii.eqb a) (list_ascii_of_string "0123456789abcdef").

Definition hexValue (a : ascii) : Z :=
  let n := Z.of_nat (nat_of_ascii a) in
  if (48 <=? n) && (n <=? 57) then n - 48 else n - 87.

(** [s] is the two-digit lowercase hexadecimal numeral of [b]. *)
Definition isHex2 (s : string) (b : Z) : Prop :=
  exists h l, s = String h (String l EmptyString) /\
    isLowerHex h = true /\ isLowerHex l = true /\
    16 * hexValue h + hexValue l = b.

(** ** The message source *)

Section Source.

(** The state of everything outside the source: the store the sink
    writes to, the clock, the caller's side of the handler. *)
Variable W : Type.

(** [straw.StreamStore], of which the source calls [OpenReadCloser]
    only.  By Go's convention the reader is nil when the error is
    not. *)
Record StreamStore : Type := {
  OpenReadCloser : string -> W -> (ReadCloser + error) * W
}.

(** Which case of the [select] at lines 70-78 ran. *)
Inductive selected : Type :=
| CtxDone      (* case <-ctx.Done() *)
| TimerC.      (* case <-t.C *)

(** [context.Context].  [Select d] is the race of [ctx.Done()] against
    the channel of [time.NewTimer(d)]; which one wins is up to the
    environment.  [Err] is [ctx.Err()] read after [Done] is closed,
    where the interface promises a non-nil error. *)
Record CancelContext : Type := {
  Select : Duration -> W -> selected * W;
  Err : W -> error
}.

Definition ConsumerMessageHandler : Type := list byte -> W -> option error * W.

Record MessageSource : Type := {
  streamstore : StreamStore;
  path : string;
  pollPeriod : Duration
}.

(** The assignment [ms.pollPeriod = d]. *)
Definition set_pollPeriod (ms : MessageSource) (d : Duration) : MessageSource :=
  {| streamstore := streamstore ms; path := path ms; pollPeriod := d |}.

(** What the source did to its environment, in order. *)
Inductive event : Type :=
| EvOpen (seq : Z) (fullname : string)   (* OpenReadCloser(fullname), line 62 *)
| EvTimer (d : Duration)                 (* time.NewTimer(d) and the select *)
| EvHandler (seq : Z) (m : list byte)    (* handler(buf), line 101 *)
| EvClose (seq : Z)                      (* rc.Close(), line 105 *)
| EvDeferredClose (seq : Z).             (* rc.Close() in a deferred func *)

(** Where [ConsumeMessages] stands. *)
Inductive control : Type :=
| WaitLoop (seq : Z)                     (* top of waitLoop, line 61 *)
| ReadLoop (seq : Z) (rc : ReadCloser)   (* top of readLoop, line 81 *)
| Exhausted (seq : Z) (rc : ReadCloser)  (* after [break readLoop], line 105 *)
| Return (err : option error).           (* the function has returned *)

(** [defers] lists the segments whose deferred func holds a non-nil
    [rc], the latest first: each iteration of the outer loop defers
    one, and they all run when the function returns. *)
Record config : Type := {
  pc : control;
  world : W;
  defers : list Z;
  log : list event
}.

Definition goto (c : config) (k : control) (w : W) (evs : list event) : config :=
  {| pc := k; world := w; defers := defers c; log := log c ++ evs |}.

Definition return_ (c : config) (err : option error) (w : W) (evs : list event) : config :=
  {| pc := Return err; world := w; defers := [];
     log := log c ++ evs ++ map EvDeferredClose (defers c) |}.

Variable mq : MessageSource.
Variable ctx : CancelContext.
Variable handler : ConsumerMessageHandler.

(** One pass through [waitLoop] (lines 61-79). *)
Definition waitLoop (c : config) (seq : Z) : config :=
  let fullname := seqToPath (path mq) seq in
  match OpenReadCloser (streamstore mq) fullname (world c) with
  | (inl rc, w) =>
      {| pc := ReadLoop seq rc; world := w; defers := seq :: defers c;
         log := log c ++ [EvOpen seq fullname] |}
  | (inr err, w) =>
      if negb (IsNotExist err) then return_ c (Some err) w [EvOpen seq fullname]
      else
        let evs := [EvOpen seq fullname; EvTimer (pollPeriod mq)] in
        match Select ctx (pollPeriod mq) w with
        | (CtxDone, w') =>
            if decide (Err ctx w' = DeadlineExceeded ∨ Err ctx w' = Canceled)
            then return_ c None w' evs
            else return_ c (Some (Err ctx w')) w' evs
        | (TimerC, w') => goto c (WaitLoop seq) w' evs
        end
  end.

(** One pass through [readLoop] (lines 81-104). *)
Definition readLoop (c : config) (seq : Z) (rc : ReadCloser) : config :=
  match ReadFull rc 4 with
  | (inr err, _) =>
      return_ c (Some (Errorf ("Could not read length (" +:+ Error err +:+ ")")))
              (world c) []
  | (inl lenBytes, rc1) =>
      let len := int_of_uint32 (Uint32 lenBytes) in
      if len =? 0 then
        match Read rc1 1 with
        | (_, err, rc2) =>
            if decide (err ≠ Some EOF)
            then return_ c (Some (Errorf
                   "Was able to read past end marker. This is broken, bailing out."))
                   (world c) []
            else goto c (Exhausted seq rc2) (world c) []
        end
      else
        match ReadFull rc1 (Z.to_nat len) with
        | (inr err, _) =>
            return_ c (Some (Errorf ("Could not read payload (" +:+ Error err +:+ ")")))
                    (world c) []
        | (inl buf, rc2) =>
            match handler buf (world c) with
            | (Some err, w) => return_ c (Some err) w [EvHandler seq buf]
            | (None, w) => goto c (ReadLoop seq rc2) w [EvHandler seq buf]
            end
        end
  end.

(** Lines 105-108: close the drained segment and go on with [seq++]. *)
Definition closeSegment (c : config) (seq : Z) (rc : ReadCloser) : config :=
  match Close rc with
  | Some err => return_ c (Some err) (world c) [EvClose seq]
  | None => goto c (WaitLoop (wrapInt (seq + 1))) (world c) [EvClose seq]
  end.

Definition step (c : config) : config :=
  match pc c with
  | WaitLoop seq => waitLoop c seq
  | ReadLoop seq rc => readLoop c seq rc
  | Exhausted seq rc => closeSegment c seq rc
  | Return _ => c
  end.

Fixpoint run (fuel : nat) (c : config) : config :=
  match fuel with
  | O => c
  | S fuel' => run fuel' (step c)
  end.

(** [for seq := 0; ; seq++]: the state on entry. *)
Definition start (w : W) : config :=
  {| pc := WaitLoop 0; world := w; defers := []; log := [] |}.

(** [ConsumeMessages(ctx, handler)] observed for [fuel] passes: the
    value it has returned by then, if it has. *)
Definition returned (c : config) : option (option error) :=
  match pc c with
  | Return err => Some err
  | _ => None
  end.

Definition ConsumeMessages (fuel : nat) (w : W) : option (option error) :=
  returned (run fuel (start w)).

(** The pass that stops gracefully: the segment is not there, the
    cancellation signal wins the race against the poll timer, and the
    context was cancelled or ran into its deadline. *)
Definition graceful_cancel (c : config) : Prop :=
  exists seq err w w',
    pc c = WaitLoop seq /\
    OpenReadCloser (streamstore mq) (seqToPath (path mq) seq) (world c) = (inr err, w) /\
    IsNotExist err = true /\
    Select ctx (pollPeriod mq) w = (CtxDone, w') /\
    (Err ctx w' = DeadlineExceeded \/ Err ctx w' = Canceled).

(** The passes that end in an error, and the error. *)
Inductive failure (c : config) (e : error) : Prop :=
| OpenFailed seq w :                     (* line 67 *)
    pc c = WaitLoop seq ->
    OpenReadCloser (streamstore mq) (seqToPath (path mq) seq) (world c) = (inr e, w) ->
    IsNotExist e = false ->
    failure c e
| ContextFailed seq err w w' :           (* line 76 *)
    pc c = WaitLoop seq ->
    OpenReadCloser (streamstore mq) (seqToPath (path mq) seq) (world c) = (inr err, w) ->
    IsNotExist err = true ->
    Select ctx (pollPeriod mq) w = (CtxDone, w') ->
    e = Err ctx w' -> e <> DeadlineExceeded -> e <> Canceled ->
    failure c e
| LengthFailed seq rc err rc1 :          (* line 85 *)
    pc c = ReadLoop seq rc ->
    ReadFull rc 4 = (inr err, rc1) ->
    e = Errorf ("Could not read length (" +:+ Error err +:+ ")") ->
    failure c e
| EndMarkerFailed seq rc lenBytes rc1 buf err rc2 :   (* line 93 *)
    pc c = ReadLoop seq rc ->
    ReadFull rc 4 = (inl lenBytes, rc1) ->
    Uint32 lenBytes = 0 ->
    Read rc1 1 = (buf, err, rc2) ->
    err <> Some EOF ->
    e = Errorf "Was able to read past end marker. This is broken, bailing out." ->
    failure c e
| PayloadFailed seq rc lenBytes rc1 err rc2 :         (* line 99 *)
    pc c = ReadLoop seq rc ->
    ReadFull rc 4 = (inl lenBytes, rc1) ->
    Uint32 lenBytes <> 0 ->
    ReadFull rc1 (Z.to_nat (Uint32 lenBytes)) = (inr err, rc2) ->
    e = Errorf ("Could not read payload (" +:+ Error err +:+ ")") ->
    failure c e
| HandlerFailed seq rc lenBytes rc1 buf rc2 w :       (* line 102 *)
    pc c = ReadLoop seq rc ->
    ReadFull rc 4 = (inl lenBytes, rc1) ->
    Uint32 lenBytes <> 0 ->
    ReadFull rc1 (Z.to_nat (Uint32 lenBytes)) = (inl buf, rc2) ->
    handler buf (world c) = (Some e, w) ->
    failure c e
| CloseFailed seq rc :                   (* line 106 *)
    pc c = Exhausted seq rc ->
    Close rc = Some e ->
    failure c e.

End Source.

Arguments OpenReadCloser {W} _ _ _.
Arguments Select {W} _ _ _.
Arguments Err {W} _ _.
Arguments streamstore {W} _.
Arguments path {W} _.
Arguments pollPeriod {W} _.
Arguments set_pollPeriod {W} _ _.
Arguments pc {W} _.
Arguments world {W} _.
Arguments defers {W} _.
Arguments log {W} _.
Arguments goto {W} _ _ _ _.
Arguments return_ {W} _ _ _ _.
Arguments waitLoop {W} _ _ _ _.
Arguments readLoop {W} _ _ _ _.
Arguments closeSegment {W} _ _ _.
Arguments step {W} _ _ _ _.
Arguments run {W} _ _ _ _ _.
Arguments start {W} _.
Arguments returned {W} _.
Arguments ConsumeMessages {W} _ _ _ _ _.
Arguments graceful_cancel {W} _ _ _.
Arguments failure {W} _ _ _ _ _.

(** What the log says about the segments. *)
Definition event_seq (e : event) : option Z :=
  match e with
  | EvOpen seq _ | EvHandler seq _ | EvClose seq => Some seq
  | EvTimer _ | EvDeferredClose _ => None
  end.

(** The segment each open, delivery and close was about, in order. *)
Definition touched (l : list event) : list Z := omap event_seq l.

(** The segments closed at line 105, in order. *)
Definition closed (l : list event) : list Z :=
  omap (fun e => if e is EvClose seq then Some seq else None) l.

(** The messages given to the handler, in order. *)
Definition handled (l : list event) : list (list byte) :=
  omap (fun e => if e is EvHandler _ m then Some m else None) l.

(** The sequence numbers [0, 1, ..., k-1]. *)
Definition upto (k : nat) : list Z := map Z.of_nat (List.seq 0 k).

(** An open names the path of its segment under [root]. *)
Definition names_segment (root : string) (e : event) : Prop :=
  match e with
  | EvOpen seq fullname => fullname = seqToPath root seq
  | _ => True
  end.

(** The sequence number a pass is working on. *)
Definition current (k : control) : option Z :=
  match k with
  | WaitLoop seq | ReadLoop seq _ | Exhausted seq _ => Some seq
  | Return _ => None
  end.

Section LogShape.

Variable W : Type.
Variable mq : MessageSource W.
Variable ctx : CancelContext W.
Variable handler : ConsumerMessageHandler W.

(** What one pass adds to the log: events about the current segment
    only, a close exactly when the pass is the one at line 105, and the
    sequence number moves on only there. *)
Record pass_log (c : config W) (seq : Z) (evs : list event) : Prop := {
  pass_touched : Forall (fun z => z = seq) (touched evs);
  pass_names : Forall (names_segment (path mq)) evs;
  pass_closed : closed evs = if pc c is Exhausted _ _ then [seq] else [];
  pass_next : forall seq', current (pc (step mq ctx handler c)) = Some seq' ->
                seq' = if pc c is Exhausted _ _ then wrapInt (seq + 1) else seq
}.

(** The shape of the log after [n] passes: the events come segment by
    segment in increasing order, every open names the path of its
    segment, the segments closed so far are [0, 1, ..., j-1] in this
    order, and the loop, while it runs, is at segment [j], nothing in
    the log being about a later one. *)
Definition in_order (n : nat) (c : config W) : Prop :=
  StronglySorted Z.le (touched (log c)) /\
  Forall (names_segment (path mq)) (log c) /\
  exists j : nat, (j <= n)%nat /\ closed (log c) = upto j /\
    forall seq, current (pc c) = Some seq ->
      seq = Z.of_nat j /\ Forall (fun z => z <= seq) (touched (log c)).

End LogShape.

Arguments pass_log {W} _ _ _ _ _ _.
Arguments in_order {W} _ _ _.

(** ** Construction *)

Section Construction.

Variable W : Type.

(** The compression selector, its two constants and the snappy
    decorator live in a file that is missing from the sources; they are taken as
    parameters.  A Go [switch] compares the tag with each case value
    in turn. *)
Variable CompressionType : Type.
Context `{EqDecision CompressionType}.
Variable CompressionTypeNone : CompressionType.
Variable CompressionTypeSnappy : CompressionType.
Variable newSnappyStreamStore : StreamStore W -> StreamStore W.

(** [MessageSourceConfig]; [Compression] is the field
    [CompressionType]. *)
Record MessageSourceConfig : Type := {
  Path : string;
  PollPeriod : Duration;
  Compression : CompressionType
}.

Definition NewMessageSource (streamstore : StreamStore W)
    (config : MessageSourceConfig) : MessageSource W :=
  let streamstore :=
    if decide (Compression config = CompressionTypeNone) then streamstore
    else if decide (Compression config = CompressionTypeSnappy)
         then newSnappyStreamStore streamstore
         else streamstore in
  let ms := {| streamstore := streamstore;
               path := Path config;
               pollPeriod := PollPeriod config |} in
  if pollPeriod ms =? 0 then set_pollPeriod ms (5 * Second) else ms.

End Construction.

Arguments Path {CompressionType} _.
Arguments PollPeriod {CompressionType} _.
Arguments Compression {CompressionType} _.
Arguments Build_MessageSourceConfig {CompressionType} _ _ _.
Arguments NewMessageSource {W CompressionType _} _ _ _ _ _.

(** ** The wire format, as the sink writes it *)

Definition byteOfZ (z : Z) : byte := default x00 (Byte.of_N (Z.to_N z)).

(** [binary.LittleEndian.PutUint32]: the four bytes of [v], least
    significant first. *)
Definition PutUint32 (v : Z) : list byte :=
  [byteOfZ (v mod 256); byteOfZ (v / 2 ^ 8 mod 256);
   byteOfZ (v / 2 ^ 16 mod 256); byteOfZ (v / 2 ^ 24 mod 256)].

(** Modelled from the spec: the sink's encoder is missing from the
    sources; a frame is "[uint32] length (little-endian) + payload
    bytes". *)
Definition frame (m : list byte) : list byte :=
  PutUint32 (Z.of_nat (length m)) ++ m.

(** Modelled from the spec: the end marker the missing sink writes,
    "[uint32] zero with nothing following within the same segment". *)
Definition endMarker : list byte := PutUint32 0.

(** Modelled from the spec: a segment as the missing sink leaves it
    once closed, its frames and then the end marker. *)
Definition segment (msgs : list (list byte)) : list byte :=
  concat (map frame msgs) ++ endMarker.

(** A payload the format can carry: a zero length is the end marker and
    the length field has 32 bits. *)
Definition framable (m : list byte) : Prop :=
  0 < Z.of_nat (length m) < 2 ^ 32.

(** ** More of the log *)

(** The readers closed by the deferred funcs, in order. *)
Definition deferred (l : list event) : list Z :=
  omap (fun e => if e is EvDeferredClose seq then Some seq else None) l.

(** The timers armed, in order. *)
Definition timers (l : list event) : list Duration :=
  omap (fun e => if e is EvTimer d then Some d else None) l.

(** What one pass at segment [seq] adds to the log, the deferred closes
    of a return apart: nothing, an open, an open and the timer of a
    poll, one handler call, or the close of line 105. *)
Inductive pass_events (root : string) (period : Duration) (seq : Z) :
    list event -> Prop :=
| PassSilent : pass_events root period seq []
| PassOpen : pass_events root period seq [EvOpen seq (seqToPath root seq)]
| PassPoll :
    pass_events root period seq [EvOpen seq (seqToPath root seq); EvTimer period]
| PassDeliver buf :
    framable buf -> pass_events root period seq [EvHandler seq buf]
| PassClose : pass_events root period seq [EvClose seq].

Section Polling.

Variable W : Type.
Variable mq : MessageSource W.
Variable ctx : CancelContext W.

(** The world after one open of segment [seq] and the [select] that
    follows it. *)
Definition poll_once (seq : Z) (w : W) : W :=
  (Select ctx (pollPeriod mq)
     (OpenReadCloser (streamstore mq) (seqToPath (path mq) seq) w).2).2.

(** The world after [k] polls for segment [seq]. *)
Fixpoint after_polls (seq : Z) (k : nat) (w : W) : W :=
  match k with
  | O => w
  | S k' => after_polls seq k' (poll_once seq w)
  end.

(** What one poll logs. *)
Definition poll_events (seq : Z) : list event :=
  [EvOpen seq (seqToPath (path mq) seq); EvTimer (pollPeriod mq)].

End Polling.

Arguments poll_once {W} _ _ _ _.
Arguments after_polls {W} _ _ _ _ _.
Arguments poll_events {W} _ _.

(** ** An in-memory environment

    A store that does not change while the source runs: [files] holds
    the segments, [faults] the paths whose open fails and the error,
    and [closing] is what [Close] returns on every reader.  The context
    lets the timer win [polls] times and is then done with [cause].  The
    handler records what it is given and answers by [verdict]. *)
Module Mem.

Record world : Type := {
  files : gmap string (list byte);
  faults : gmap string error;
  closing : option error;
  polls : nat;
  cause : error;
  delivered : list (list byte)
}.

Definition store : StreamStore world :=
  {| OpenReadCloser name w :=
       match faults w !! name with
       | Some err => (inr err, w)
       | None =>
           match files w !! name with
           | Some data => (inl (set_close (bytesReader data) (closing w)), w)
           | None => (inr (PathError "open" name ErrNotExist), w)
           end
       end |}.

Definition ctx : CancelContext world :=
  {| Select _ w :=
       match polls w with
       | O => (CtxDone, w)
       | S n => (TimerC, {| files := files w; faults := faults w;
                            closing := closing w; polls := n;
                            cause := cause w; delivered := delivered w |})
       end;
     Err w := cause w |}.

Definition handler (verdict : list byte -> option error) :
    ConsumerMessageHandler world :=
  fun m w =>
    (verdict m, {| files := files w; faults := faults w;
                   closing := closing w; polls := polls w;
                   cause := cause w; delivered := delivered w ++ [m] |}).

Definition accept : list byte -> option error := fun _ => None.

Definition source (root : string) : MessageSource world :=
  {| streamstore := store; path := root; pollPeriod := 5 * Second |}.

Definition init (fs : list (string * list byte)) (n : nat)
    (why : error) : world :=
  {| files := list_to_map fs; faults := ∅; closing := None; polls := n;
     cause := why; delivered := [] |}.

End Mem.

(** Concrete environments, used to run the source. *)
Module Examples.

Definition root : string := "/q".

Definition source : MessageSource Mem.world := Mem.source root.

(** Two closed segments: messages [01 02] and [03], then [04]. *)
Definition two_segments : list (list (list byte)) :=
  [[[x01; x02]; [x03]]; [[x04]]].

Definition written (n : nat) (why : error) : Mem.world :=
  Mem.init [(seqToPath root 0, segment [[x01; x02]; [x03]]);
            (seqToPath root 1, segment [[x04]])] n why.

(** Nothing written yet. *)
Definition empty (n : nat) (why : error) : Mem.world := Mem.init [] n why.

(** Segment 0 cannot be opened. *)
Definition denied : Mem.world :=
  {| Mem.files := ∅;
     Mem.faults := {[ seqToPath root 0 := ErrOther "permission denied" ]};
     Mem.closing := None; Mem.polls := 0; Mem.cause := Canceled;
     Mem.delivered := [] |}.

(** Segment 0 holds one message and its end marker, and closing a
    reader fails. *)
Definition close_fails : Mem.world :=
  {| Mem.files := {[ seqToPath root 0 := segment [[x01]] ]};
     Mem.faults := ∅;
     Mem.closing := Some (ErrOther "close failed"); Mem.polls := 3;
     Mem.cause := Canceled; Mem.delivered := [] |}.

Definition reject_03 (m : list byte) : option error :=
  if decide (m = [x03]) then Some (ErrOther "handler failed") else None.

(** What stays true of the world of [written] while the source runs. *)
Definition as_written (w : Mem.world) : Prop :=
  Mem.files w = Mem.files (written 0 Canceled) /\
  Mem.faults w = ∅ /\ Mem.closing w = None.

(** A pass of the read loop over the given bytes of segment 0. *)
Definition reading (data : list byte) (w : Mem.world) : config Mem.world :=
  {| pc := ReadLoop 0 (bytesReader data); world := w; defers := [0];
     log := [EvOpen 0 (seqToPath root 0)] |}.

(** The pass after the end marker of segment 0 when [Close] fails. *)
Definition exhausted_close_fails : config Mem.world :=
  {| pc := Exhausted 0 (set_close (bytesReader []) (Some (ErrOther "close failed")));
     world := close_fails; defers := [0];
     log := [EvOpen 0 (seqToPath root 0); EvHandler 0 [x01]] |}.

(** A compression selector as an integer, and a decorator that can be
    told from the store it wraps. *)
Definition snappy_stub (ss : StreamStore Mem.world) : StreamStore Mem.world :=
  {| OpenReadCloser name w := (inr (ErrOther "snappy"), w) |}.

Definition config_of (period : Duration) (compression : Z) : MessageSourceConfig Z :=
  {| Path := root; PollPeriod := period; Compression := compression |}.

(** The world of [written] once the context is done by cancellation. *)
Definition as_written_done (w : Mem.world) : Prop :=
  as_written w /\ Mem.polls w = 0%nat /\ Mem.cause w = Canceled.

(** A context that is done from the start. *)
Definition done_ctx : CancelContext Mem.world :=
  {| Select _ w := (CtxDone, w); Err _ := Canceled |}.

(** A store whose files show up late: nothing is found while more than
    [k] polls are left. *)
Definition late_store (k : nat) : StreamStore Mem.world :=
  {| OpenReadCloser name w :=
       if (k <? Mem.polls w)%nat
       then (inr (PathError "open" name ErrNotExist), w)
       else OpenReadCloser Mem.store name w |}.

Definition late_source (k : nat) : MessageSource Mem.world :=
  {| streamstore := late_store k; path := root; pollPeriod := 20 * Millisecond |}.

End Examples.

(** ** Facts about the Go library model *)

Lemma byteZ_range (b : byte) : 0 <= byteZ b < 256.
Proof.
  unfold byteZ. pose proof (Byte.to_N_bounded b). lia.
Qed.

Lemma byteZ_byteOfZ (z : Z) : 0 <= z < 256 -> byteZ (byteOfZ z) = z.
Proof.
  intros Hz. unfold byteZ, byteOfZ.
  destruct (Byte.of_N (Z.to_N z)) as [b|] eqn:E.
  - apply Byte.to_of_N in E. simpl. lia.
  - apply Byte.of_N_None_iff in E. lia.
Qed.

Lemma lor_shiftl_add (a b k : Z) :
  0 <= k -> 0 <= a < 2 ^ k -> Z.lor a (Z.shiftl b k) = a + b * 2 ^ k.
Proof.
  intros Hk Ha. rewrite <- Z.shiftl_mul_pow2 by lia.
  symmetry. apply Z.add_nocarry_lor.
  apply Z.bits_inj'. intros n Hn.
  rewrite Z.land_spec, Z.bits_0.
  destruct (Z.ltb_spec n k).
  - rewrite Z.shiftl_spec_low by lia. apply andb_false_r.
  - destruct (Z.eq_dec a 0) as [->|Hne]; [now rewrite Z.bits_0|].
    rewrite (Z.bits_above_log2 a n); [reflexivity|lia|].
    apply Z.log2_lt_pow2; [lia|].
    apply Z.lt_le_trans with (2 ^ k); [lia|].
    apply Z.pow_le_mono_r; lia.
Qed.

(** [Uint32] reads its four bytes least significant first. *)
Lemma Uint32_little_endian (b0 b1 b2 b3 : byte) :
  Uint32 [b0; b1; b2; b3] =
  byteZ b0 + 2 ^ 8 * byteZ b1 + 2 ^ 16 * byteZ b2 + 2 ^ 24 * byteZ b3.
Proof.
  unfold Uint32. cbn [nth].
  pose proof (byteZ_range b0). pose proof (byteZ_range b1).
  pose proof (byteZ_range b2). pose proof (byteZ_range b3).
  rewrite (lor_shiftl_add (byteZ b0)) by lia.
  rewrite (lor_shiftl_add _ _ 16) by lia.
  rewrite (lor_shiftl_add _ _ 24) by lia.
  lia.
Qed.

Lemma Uint32_range (b : list byte) : 0 <= Uint32 b < 2 ^ 32.
Proof.
  unfold Uint32.
  pose proof (byteZ_range (nth 0 b x00)). pose proof (byteZ_range (nth 1 b x00)).
  pose proof (byteZ_range (nth 2 b x00)). pose proof (byteZ_range (nth 3 b x00)).
  rewrite (lor_shiftl_add (byteZ (nth 0 b x00))) by lia.
  rewrite (lor_shiftl_add _ _ 16) by lia.
  rewrite (lor_shiftl_add _ _ 24) by lia.
  lia.
Qed.

Lemma wrapInt_small (z : Z) : - 2 ^ 63 <= z < 2 ^ 63 -> wrapInt z = z.
Proof.
  intros Hz. unfold wrapInt. rewrite Z.mod_small; lia.
Qed.

Lemma int_of_uint32_id (b : list byte) : int_of_uint32 (Uint32 b) = Uint32 b.
Proof.
  unfold int_of_uint32. pose proof (Uint32_range b). apply wrapInt_small. lia.
Qed.

Lemma Uint32_PutUint32 (v : Z) : 0 <= v < 2 ^ 32 -> Uint32 (PutUint32 v) = v.
Proof.
  intros Hv. unfold PutUint32. rewrite Uint32_little_endian.
  rewrite !byteZ_byteOfZ by (apply Z.mod_pos_bound; lia).
  pose proof (Z.div_mod v 256 ltac:(lia)).
  pose proof (Z.div_mod (v / 256) 256 ltac:(lia)).
  pose proof (Z.div_mod (v / 256 / 256) 256 ltac:(lia)).
  rewrite !Z.div_div in * by lia.
  change (2 ^ 8) with 256. change (2 ^ 16) with (256 * 256).
  change (2 ^ 24) with (256 * (256 * 256)).
  assert (v / (256 * (256 * 256)) < 256)
    by (apply Z.div_lt_upper_bound; lia).
  assert (0 <= v / (256 * (256 * 256))) by (apply Z.div_pos; lia).
  rewrite (Z.mod_small (v / (256 * (256 * 256)))) by lia.
  change (256 * 256 * 256) with (256 * (256 * 256)) in *.
  lia.
Qed.

(** [ReadAtLeast] is the loop over [Read]. *)
Lemma ReadAtLeast_loop (rc : ReadCloser) (acc : list byte) (n : nat) :
  (0 < n)%nat ->
  ReadAtLeast (script rc) acc n =
    let '(bs, e, rc') := Read rc n in
    let acc' := acc ++ bs in
    if (length bs =? n)%nat then (inl acc', script rc')
    else match e with
         | None => ReadAtLeast (script rc') acc' (n - length bs)
         | Some err =>
             (inr (if decide (err = EOF)
                   then (if acc' is [] then EOF else ErrUnexpectedEOF)
                   else err), script rc')
         end.
Proof.
  intros Hn. destruct n as [|n]; [lia|].
  unfold Read. destruct (script rc) as [|[chunk e] rest] eqn:Hs; cbn [ReadAtLeast].
  - rewrite Hs. cbn. rewrite app_nil_r. reflexivity.
  - destruct (Nat.leb_spec (length chunk) (S n)) as [Hle|Hgt].
    + cbn [set_script script]. reflexivity.
    + cbn [set_script script]. rewrite length_take.
      replace (S n `min` length chunk)%nat with (S n) by lia.
      rewrite Nat.eqb_refl. reflexivity.
Qed.

(** A successful [ReadAtLeast] fills the buffer with the next [n] bytes
    of the stream, no more and no fewer, and leaves the rest. *)
Lemma ReadAtLeast_inl s : forall acc n buf s',
  ReadAtLeast s acc n = (inl buf, s') ->
  buf = acc ++ take n (stream s) /\ (n <= length (stream s))%nat /\
  stream s' = drop n (stream s).
Proof.
  induction s as [|[chunk e] rest IH]; intros acc n buf s' H.
  - destruct n; cbn in H; [|discriminate].
    inversion H; subst. cbn. rewrite app_nil_r. auto with lia.
  - destruct n as [|n]; [cbn in H; inversion H; subst; cbn;
                          rewrite app_nil_r; auto with lia|].
    cbn [ReadAtLeast] in H.
    change (stream ((chunk, e) :: rest)) with (chunk ++ stream rest).
    rewrite length_app.
    destruct (Nat.leb_spec (length chunk) (S n)) as [Hle|Hgt].
    + destruct (Nat.eqb_spec (length chunk) (S n)) as [Heq|Hne].
      * inversion H; subst. rewrite <- Heq.
        rewrite take_app_length, drop_app_length. auto with lia.
      * destruct e as [err|]; [discriminate|].
        apply IH in H as (-> & Hlen & ->).
        rewrite take_app_ge, drop_app_ge by lia.
        rewrite <- app_assoc. auto with lia.
    + inversion H; subst.
      change (stream ((drop (S n) chunk, e) :: rest))
        with (drop (S n) chunk ++ stream rest).
      rewrite take_app_le, drop_app_le by lia. auto with lia.
Qed.

(** When the stream holds fewer bytes than asked for, [ReadAtLeast]
    fails. *)
Lemma ReadAtLeast_short s : forall acc n,
  (length (stream s) < n)%nat -> exists e s', ReadAtLeast s acc n = (inr e, s').
Proof.
  induction s as [|[chunk e] rest IH]; intros acc n Hn.
  - destruct n; [cbn in Hn; lia|]. cbn. eauto.
  - destruct n as [|n]; [lia|].
    change (stream ((chunk, e) :: rest)) with (chunk ++ stream rest) in Hn.
    rewrite length_app in Hn. cbn [ReadAtLeast].
    destruct (Nat.leb_spec (length chunk) (S n)); [|lia].
    destruct (Nat.eqb_spec (length chunk) (S n)); [lia|].
    destruct e; [eauto|]. apply IH. lia.
Qed.

Lemma ReadFull_inl (rc rc' : ReadCloser) (n : nat) (buf : list byte) :
  ReadFull rc n = (inl buf, rc') ->
  length buf = n /\ buf = take n (stream (script rc)) /\
  stream (script rc') = drop n (stream (script rc)) /\
  close_err rc' = close_err rc.
Proof.
  unfold ReadFull. destruct (ReadAtLeast (script rc) [] n) as [r s] eqn:E.
  intros H. inversion H; subst. cbn [set_script script close_err].
  apply ReadAtLeast_inl in E as (-> & Hlen & ->).
  cbn [app]. rewrite length_take. repeat split; lia.
Qed.

Lemma ReadFull_short (rc : ReadCloser) (n : nat) :
  (length (stream (script rc)) < n)%nat ->
  exists e rc', ReadFull rc n = (inr e, rc').
Proof.
  intros H. unfold ReadFull.
  destruct (ReadAtLeast_short (script rc) [] n H) as (e & s' & ->). eauto.
Qed.

(** The in-memory reader. *)
Lemma ReadFull_bytesReader (data : list byte) (ce : option error) (n : nat) :
  (n <= length data)%nat ->
  ReadFull (set_close (bytesReader data) ce) n =
    (inl (take n data), set_close (bytesReader (drop n data)) ce).
Proof.
  intros Hn. unfold ReadFull, bytesReader, set_close, set_script. cbn [script close_err].
  destruct n as [|n].
  - rewrite drop_0. destruct data; reflexivity.
  - destruct data as [|b data]; [cbn in Hn; lia|].
    cbn [ReadAtLeast]. destruct (Nat.leb_spec (length (b :: data)) (S n)) as [Hle|Hgt].
    + assert (Heq : length (b :: data) = S n) by lia.
      rewrite Heq, Nat.eqb_refl. rewrite <- Heq.
      rewrite firstn_all, drop_all. reflexivity.
    + cbn [app]. destruct (drop (S n) (b :: data)) eqn:Hd; [|reflexivity].
      apply (f_equal length) in Hd. rewrite length_drop in Hd. cbn in Hd, Hgt. lia.
Qed.

Lemma ReadFull_bytesReader_short (data : list byte) (ce : option error) (n : nat) :
  (length data < n)%nat ->
  ReadFull (set_close (bytesReader data) ce) n =
    (inr (if data is [] then EOF else ErrUnexpectedEOF),
     set_close (bytesReader []) ce).
Proof.
  intros Hn. unfold ReadFull, bytesReader, set_close, set_script. cbn [script close_err].
  destruct n as [|n]; [lia|].
  destruct data as [|b data]; [reflexivity|].
  cbn [ReadAtLeast]. destruct (Nat.leb_spec (length (b :: data)) (S n)); [|lia].
  destruct (Nat.eqb_spec (length (b :: data)) (S n)); [lia|].
  cbn [app]. destruct (S n - length (b :: data))%nat eqn:E; [lia|]. reflexivity.
Qed.

Lemma Read_bytesReader (data : list byte) (ce : option error) :
  Read (set_close (bytesReader data) ce) 1 =
    match data with
    | [] => ([], Some EOF, set_close (bytesReader []) ce)
    | b :: rest => ([b], None, set_close (bytesReader rest) ce)
    end.
Proof.
  destruct data as [|b [|b' rest]]; reflexivity.
Qed.

(** ** The loop, one pass at a time *)

Section Passes.

Context {W : Type}.
Variable mq : MessageSource W.
Variable ctx : CancelContext W.
Variable handler : ConsumerMessageHandler W.

Lemma step_WaitLoop (c : config W) (seq : Z) :
  pc c = WaitLoop seq -> step mq ctx handler c = waitLoop mq ctx c seq.
Proof. intros H. unfold step. now rewrite H. Qed.

Lemma step_ReadLoop (c : config W) (seq : Z) (rc : ReadCloser) :
  pc c = ReadLoop seq rc -> step mq ctx handler c = readLoop handler c seq rc.
Proof. intros H. unfold step. now rewrite H. Qed.

Lemma step_Exhausted (c : config W) (seq : Z) (rc : ReadCloser) :
  pc c = Exhausted seq rc -> step mq ctx handler c = closeSegment c seq rc.
Proof. intros H. unfold step. now rewrite H. Qed.

Lemma step_Return (c : config W) (err : option error) :
  pc c = Return err -> step mq ctx handler c = c.
Proof. intros H. unfold step. now rewrite H. Qed.

(** Once the function has returned nothing more happens. *)
Lemma run_Return (fuel : nat) (c : config W) (err : option error) :
  pc c = Return err -> run mq ctx handler fuel c = c.
Proof.
  intros H. induction fuel as [|fuel IH]; [reflexivity|].
  cbn. now rewrite (step_Return c err H).
Qed.

Lemma run_add (n m : nat) (c : config W) :
  run mq ctx handler (n + m) c = run mq ctx handler m (run mq ctx handler n c).
Proof.
  revert c. induction n as [|n IH]; intros c; [reflexivity|]. cbn. apply IH.
Qed.

Lemma run_S (n : nat) (c : config W) :
  run mq ctx handler (S n) c = step mq ctx handler (run mq ctx handler n c).
Proof.
  replace (S n) with (n + 1)%nat by lia. now rewrite run_add.
Qed.

Lemma returned_Some (c : config W) (r : option error) :
  returned c = Some r <-> pc c = Return r.
Proof.
  unfold returned. destruct (pc c); split; intros H; try discriminate;
    inversion H; reflexivity.
Qed.

Lemma returned_return_ (c : config W) err w evs :
  returned (return_ c err w evs) = Some err.
Proof. reflexivity. Qed.

Lemma returned_stays (fuel : nat) (c : config W) (r : option error) :
  returned c = Some r -> returned (run mq ctx handler fuel c) = Some r.
Proof.
  intros H. apply returned_Some in H as H'. now rewrite (run_Return fuel c r H').
Qed.

Lemma run_succ (n : nat) (c : config W) :
  run mq ctx handler (S n) c = run mq ctx handler n (step mq ctx handler c).
Proof. reflexivity. Qed.

Lemma run_1 (c : config W) : run mq ctx handler 1 c = step mq ctx handler c.
Proof. reflexivity. Qed.

End Passes.

(** ** Segment acquisition *)

Section Acquisition.

Context {W : Type}.
Variable mq : MessageSource W.
Variable ctx : CancelContext W.
Variable handler : ConsumerMessageHandler W.

Local Abbreviation step := (step mq ctx handler).
Local Abbreviation run := (run mq ctx handler).

(** C3.  When the segment is not there yet and the cancellation signal
    wins the race against the poll timer, [ConsumeMessages] returns nil
    if [ctx.Err()] is [context.DeadlineExceeded] or [context.Canceled],
    and returns [ctx.Err()] itself for any other reason. *)
Theorem cancellation_during_wait (c : config W) (seq : Z) (err : error) (w w' : W) :
  pc c = WaitLoop seq ->
  OpenReadCloser (streamstore mq) (seqToPath (path mq) seq) (world c) = (inr err, w) ->
  IsNotExist err = true ->
  Select ctx (pollPeriod mq) w = (CtxDone, w') ->
  (Err ctx w' = DeadlineExceeded \/ Err ctx w' = Canceled ->
     returned (step c) = Some None) /\
  (Err ctx w' <> DeadlineExceeded -> Err ctx w' <> Canceled ->
     returned (step c) = Some (Some (Err ctx w'))).
Proof.
  intros Hpc Hopen Hne Hsel. rewrite (step_WaitLoop _ _ _ _ _ Hpc).
  unfold waitLoop. rewrite Hopen, Hne. cbn [negb]. rewrite Hsel.
  split.
  - intros Hg. now rewrite decide_True.
  - intros H1 H2. rewrite decide_False; [reflexivity|]. intros [?|?]; contradiction.
Qed.


End Acquisition.

(** ** Draining a segment *)

Section Drain.

Context {W : Type}.
Variable mq : MessageSource W.
Variable ctx : CancelContext W.
Variable handler : ConsumerMessageHandler W.

Local Abbreviation step := (step mq ctx handler).
Local Abbreviation run := (run mq ctx handler).

Lemma length_4 (l : list byte) :
  length l = 4%nat -> exists b0 b1 b2 b3, l = [b0; b1; b2; b3].
Proof.
  destruct l as [|b0 [|b1 [|b2 [|b3 [|? ?]]]]]; try discriminate. eauto.
Qed.

(** The pass over a frame whose length field is not zero. *)
Lemma readLoop_payload (c : config W) (seq : Z) (rc rc1 : ReadCloser)
    (lenBytes : list byte) :
  ReadFull rc 4 = (inl lenBytes, rc1) ->
  Uint32 lenBytes <> 0 ->
  readLoop handler c seq rc =
    match ReadFull rc1 (Z.to_nat (Uint32 lenBytes)) with
    | (inr err, _) =>
        return_ c (Some (Errorf ("Could not read payload (" +:+ Error err +:+ ")")))
                (world c) []
    | (inl buf, rc2) =>
        match handler buf (world c) with
        | (Some err, w) => return_ c (Some err) w [EvHandler seq buf]
        | (None, w) => goto c (ReadLoop seq rc2) w [EvHandler seq buf]
        end
    end.
Proof.
  intros Hlen Hnz. unfold readLoop. rewrite Hlen, int_of_uint32_id.
  destruct (Z.eqb_spec (Uint32 lenBytes) 0); [contradiction|reflexivity].
Qed.

(** The pass over the end marker. *)
Lemma readLoop_end_marker (c : config W) (seq : Z) (rc rc1 : ReadCloser)
    (lenBytes : list byte) :
  ReadFull rc 4 = (inl lenBytes, rc1) ->
  Uint32 lenBytes = 0 ->
  readLoop handler c seq rc =
    match Read rc1 1 with
    | (_, err, rc2) =>
        if decide (err ≠ Some EOF)
        then return_ c (Some (Errorf
               "Was able to read past end marker. This is broken, bailing out."))
               (world c) []
        else goto c (Exhausted seq rc2) (world c) []
    end.
Proof.
  intros Hlen Hz. unfold readLoop. rewrite Hlen, int_of_uint32_id, Hz. reflexivity.
Qed.

(** What the two reads of a pass that reaches the handler have taken
    from the stream. *)
Lemma read_frame (rc rc1 rc2 : ReadCloser) (lenBytes buf : list byte) :
  ReadFull rc 4 = (inl lenBytes, rc1) ->
  ReadFull rc1 (Z.to_nat (Uint32 lenBytes)) = (inl buf, rc2) ->
  length lenBytes = 4%nat /\
  lenBytes = take 4 (stream (script rc)) /\
  Z.of_nat (length buf) = Uint32 lenBytes /\
  buf = take (Z.to_nat (Uint32 lenBytes)) (drop 4 (stream (script rc))) /\
  stream (script rc2) =
    drop (Z.to_nat (Uint32 lenBytes)) (drop 4 (stream (script rc))).
Proof.
  intros Hlen Hbuf.
  destruct (ReadFull_inl _ _ _ _ Hlen) as (Hl & Htake & Hrest & _).
  destruct (ReadFull_inl _ _ _ _ Hbuf) as (Hbl & Hbt & Hbr & _).
  rewrite Hrest in Hbt, Hbr. pose proof (Uint32_range lenBytes).
  repeat split; [exact Hl|exact Htake|lia|exact Hbt|exact Hbr].
Qed.

(** C5.  One decode pass reads exactly the next 4 bytes of the segment
    and takes them as a little-endian unsigned 32-bit length; when the
    length is positive it reads exactly that many bytes, which are one
    message for the handler; when either read comes up short, for want
    of bytes or by an error of the reader, [ConsumeMessages] returns a
    decode error, which is not the clean end of the segment. *)
Theorem frame_decode_step (c : config W) (seq : Z) (rc : ReadCloser) :
  pc c = ReadLoop seq rc ->
  (forall lenBytes rc1, ReadFull rc 4 = (inl lenBytes, rc1) ->
     lenBytes = take 4 (stream (script rc)) /\ length lenBytes = 4%nat /\
     Uint32 lenBytes =
       byteZ (nth 0 lenBytes x00) + 2 ^ 8 * byteZ (nth 1 lenBytes x00) +
       2 ^ 16 * byteZ (nth 2 lenBytes x00) + 2 ^ 24 * byteZ (nth 3 lenBytes x00) /\
     0 <= Uint32 lenBytes < 2 ^ 32 /\
     (0 < Uint32 lenBytes ->
        (forall buf rc2,
           ReadFull rc1 (Z.to_nat (Uint32 lenBytes)) = (inl buf, rc2) ->
           Z.of_nat (length buf) = Uint32 lenBytes /\
           buf = take (Z.to_nat (Uint32 lenBytes)) (drop 4 (stream (script rc))) /\
           stream (script rc2) =
             drop (Z.to_nat (Uint32 lenBytes)) (drop 4 (stream (script rc))) /\
           step c = match handler buf (world c) with
                    | (Some err, w) => return_ c (Some err) w [EvHandler seq buf]
                    | (None, w) => goto c (ReadLoop seq rc2) w [EvHandler seq buf]
                    end) /\
        (forall e rc2,
           ReadFull rc1 (Z.to_nat (Uint32 lenBytes)) = (inr e, rc2) ->
           returned (step c) =
             Some (Some (Errorf ("Could not read payload (" +:+ Error e +:+ ")")))) /\
        ((length (drop 4 (stream (script rc))) < Z.to_nat (Uint32 lenBytes))%nat ->
           exists e, returned (step c) =
             Some (Some (Errorf ("Could not read payload (" +:+ Error e +:+ ")")))))) /\
  (forall e rc1, ReadFull rc 4 = (inr e, rc1) ->
     returned (step c) =
       Some (Some (Errorf ("Could not read length (" +:+ Error e +:+ ")")))) /\
  ((length (stream (script rc)) < 4)%nat ->
     exists e, returned (step c) =
       Some (Some (Errorf ("Could not read length (" +:+ Error e +:+ ")")))).
Proof.
  intros Hpc. rewrite (step_ReadLoop _ _ _ _ _ _ Hpc).
  assert (Hfail : forall e rc1, ReadFull rc 4 = (inr e, rc1) ->
            returned (readLoop handler c seq rc) =
              Some (Some (Errorf ("Could not read length (" +:+ Error e +:+ ")")))).
  { intros e rc1 He. unfold readLoop. now rewrite He. }
  split; [|split; [exact Hfail|]].
  - intros lenBytes rc1 Hlen.
    destruct (ReadFull_inl _ _ _ _ Hlen) as (Hl & Htake & Hrest & _).
    split; [exact Htake|]. split; [exact Hl|]. split.
    { destruct (length_4 _ Hl) as (b0 & b1 & b2 & b3 & ->).
      apply Uint32_little_endian. }
    split; [apply Uint32_range|]. intros Hpos.
    rewrite (readLoop_payload c seq rc rc1 lenBytes Hlen) by lia.
    split; [|split].
    + intros buf rc2 Hbuf. rewrite Hbuf.
      destruct (read_frame _ _ _ _ _ Hlen Hbuf) as (_ & _ & Hbl & Hbt & Hbr).
      repeat split; [exact Hbl|exact Hbt|exact Hbr].
    + intros e rc2 He. now rewrite He.
    + intros Hshort. rewrite <- Hrest in Hshort.
      destruct (ReadFull_short _ _ Hshort) as (e & rc2 & He).
      exists e. now rewrite He.
  - intros Hshort. destruct (ReadFull_short _ _ Hshort) as (e & rc1 & He).
    exists e. eapply Hfail, He.
Qed.

(** C6.  When the handler returns an error for a message,
    [ConsumeMessages] returns that very error at once: the handler was
    called once for the message, and after the deferred closes nothing
    further is read, delivered or opened. *)
Theorem handler_error_aborts (c : config W) (seq : Z) (rc rc1 rc2 : ReadCloser)
    (lenBytes buf : list byte) (err : error) (w : W) :
  pc c = ReadLoop seq rc ->
  ReadFull rc 4 = (inl lenBytes, rc1) ->
  Uint32 lenBytes <> 0 ->
  ReadFull rc1 (Z.to_nat (Uint32 lenBytes)) = (inl buf, rc2) ->
  handler buf (world c) = (Some err, w) ->
  returned (step c) = Some (Some err) /\
  log (step c) = log c ++ [EvHandler seq buf] ++ map EvDeferredClose (defers c) /\
  forall fuel, run fuel (step c) = step c.
Proof.
  intros Hpc Hlen Hnz Hbuf Hh. rewrite (step_ReadLoop _ _ _ _ _ _ Hpc).
  rewrite (readLoop_payload c seq rc rc1 lenBytes Hlen Hnz), Hbuf, Hh.
  split; [reflexivity|]. split; [reflexivity|].
  intros fuel. now apply run_Return with (err := Some err).
Qed.


End Drain.

(** ** The path scheme *)

Lemma length_append (s1 s2 : string) :
  String.length (s1 +:+ s2) = (String.length s1 + String.length s2)%nat.
Proof.
  induction s1 as [|a s1 IH]; [reflexivity|].
  change (String a s1 +:+ s2) with (String a (s1 +:+ s2)).
  cbn [String.length]. now rewrite IH.
Qed.

Lemma append_assoc (s1 s2 s3 : string) :
  (s1 +:+ s2) +:+ s3 = s1 +:+ (s2 +:+ s3).
Proof.
  induction s1 as [|a s1 IH]; [reflexivity|].
  change (String a s1 +:+ s2) with (String a (s1 +:+ s2)).
  change (String a (s1 +:+ s2) +:+ s3) with (String a ((s1 +:+ s2) +:+ s3)).
  now rewrite IH.
Qed.

Lemma hexDigit_spec (d : Z) :
  0 <= d < 16 -> isLowerHex (hexDigit d) = true /\ hexValue (hexDigit d) = d.
Proof.
  intros Hd.
  assert (H : d = 0 \/ d = 1 \/ d = 2 \/ d = 3 \/ d = 4 \/ d = 5 \/ d = 6 \/
              d = 7 \/ d = 8 \/ d = 9 \/ d = 10 \/ d = 11 \/ d = 12 \/
              d = 13 \/ d = 14 \/ d = 15) by lia.
  repeat (destruct H as [->|H]; [split; reflexivity|]).
  subst. split; reflexivity.
Qed.

Lemma hex2_spec (b : Z) : 0 <= b < 256 -> isHex2 (hex2 b) b.
Proof.
  intros Hb. exists (hexDigit (b / 16)), (hexDigit (b mod 16)).
  assert (0 <= b / 16 < 16)
    by (split; [apply Z.div_pos|apply Z.div_lt_upper_bound]; lia).
  assert (0 <= b mod 16 < 16) by (apply Z.mod_pos_bound; lia).
  destruct (hexDigit_spec (b / 16)) as [-> ->]; [lia|].
  destruct (hexDigit_spec (b mod 16)) as [-> ->]; [lia|].
  repeat split. pose proof (Z.div_mod b 16). lia.
Qed.

Lemma seqGroups_unfold (seq : Z) :
  seqGroups seq =
    [seqByte seq 6; seqByte seq 5; seqByte seq 4; seqByte seq 3;
     seqByte seq 2; seqByte seq 1; seqByte seq 0].
Proof. reflexivity. Qed.

Lemma seqByte_range (seq : Z) (i : nat) : 0 <= seqByte seq i < 256.
Proof. unfold seqByte. apply Z.mod_pos_bound. lia. Qed.

(** The groups are the base-256 digits of the sequence number. *)
Lemma seqGroups_value (seq : Z) :
  0 <= seq < 2 ^ 56 ->
  fold_left (fun acc b => acc * 256 + b) (seqGroups seq) 0 = seq.
Proof.
  intros Hs. rewrite seqGroups_unfold. cbn [fold_left]. unfold seqByte.
  change (256 ^ Z.of_nat 0) with 1. change (256 ^ Z.of_nat 1) with 256.
  change (256 ^ Z.of_nat 2) with (256 * 256).
  change (256 ^ Z.of_nat 3) with (256 * 256 * 256).
  change (256 ^ Z.of_nat 4) with (256 * 256 * 256 * 256).
  change (256 ^ Z.of_nat 5) with (256 * 256 * 256 * 256 * 256).
  change (256 ^ Z.of_nat 6) with (256 * 256 * 256 * 256 * 256 * 256).
  rewrite <- !Z.div_div by lia. rewrite Z.div_1_r.
  set (q1 := seq / 256). set (q2 := q1 / 256). set (q3 := q2 / 256).
  set (q4 := q3 / 256). set (q5 := q4 / 256). set (q6 := q5 / 256).
  pose proof (Z.div_mod seq 256 ltac:(lia)). fold q1 in H.
  pose proof (Z.div_mod q1 256 ltac:(lia)). fold q2 in H0.
  pose proof (Z.div_mod q2 256 ltac:(lia)). fold q3 in H1.
  pose proof (Z.div_mod q3 256 ltac:(lia)). fold q4 in H2.
  pose proof (Z.div_mod q4 256 ltac:(lia)). fold q5 in H3.
  pose proof (Z.div_mod q5 256 ltac:(lia)). fold q6 in H4.
  assert (0 <= q6 < 256).
  { pose proof (Z.mod_pos_bound seq 256 ltac:(lia)).
    pose proof (Z.mod_pos_bound q1 256 ltac:(lia)).
    pose proof (Z.mod_pos_bound q2 256 ltac:(lia)).
    pose proof (Z.mod_pos_bound q3 256 ltac:(lia)).
    pose proof (Z.mod_pos_bound q4 256 ltac:(lia)).
    pose proof (Z.mod_pos_bound q5 256 ltac:(lia)).
    change (2 ^ 56) with 72057594037927936 in Hs. lia. }
  rewrite (Z.mod_small q6) by lia. lia.
Qed.

(** C8.  For a sequence number of the supported range the path is made
    of 7 groups, the base-256 digits of the number, most significant
    first; each is written as two lowercase hexadecimal digits; the
    first six are directory levels under the root and the last, the
    least significant byte, is the file name; and the path always has
    the same length beyond the root. *)
Theorem seqToPath_scheme (root : string) (seq : Z) :
  0 <= seq < 2 ^ 56 ->
  length (seqGroups seq) = 7%nat /\
  fold_left (fun acc b => acc * 256 + b) (seqGroups seq) 0 = seq /\
  (forall (i : nat) (b : Z), seqGroups seq !! i = Some b ->
     0 <= b < 256 /\ seqComponents seq !! i = Some (hex2 b) /\ isHex2 (hex2 b) b) /\
  seqDir root seq =
    root +:+ "/" +:+ hex2 (seqByte seq 6) +:+ "/" +:+ hex2 (seqByte seq 5)
         +:+ "/" +:+ hex2 (seqByte seq 4) +:+ "/" +:+ hex2 (seqByte seq 3)
         +:+ "/" +:+ hex2 (seqByte seq 2) +:+ "/" +:+ hex2 (seqByte seq 1) /\
  seqToPath root seq = seqDir root seq +:+ "/" +:+ hex2 (seq mod 256) /\
  String.length (seqToPath root seq) = (String.length root + 21)%nat.
Proof.
  intros Hs. split; [reflexivity|]. split; [now apply seqGroups_value|].
  split; [|split; [|split]].
  - intros i b Hb. unfold seqComponents. rewrite list_lookup_fmap, Hb.
    assert (0 <= b < 256).
    { unfold seqGroups in Hb. rewrite list_lookup_fmap in Hb.
      destruct (rev (List.seq 0 depth) !! i); [|discriminate].
      inversion Hb. apply seqByte_range. }
    auto using hex2_spec.
  - unfold seqDir, seqComponents. rewrite seqGroups_unfold.
    cbn [map take depth Nat.sub joinPath fold_left].
    now rewrite !append_assoc.
  - unfold seqToPath, seqDir, seqComponents. rewrite seqGroups_unfold.
    cbn [map take depth Nat.sub joinPath fold_left].
    unfold seqByte at 7. change (256 ^ Z.of_nat 0) with 1. rewrite Z.div_1_r.
    now rewrite !append_assoc.
  - unfold seqToPath, seqComponents. rewrite seqGroups_unfold.
    cbn [map joinPath fold_left]. rewrite !length_append. cbn [String.length hex2]. lia.
Qed.

(** ** Construction *)

Section ConstructionFacts.

Context {W CompressionType : Type} `{EqDecision CompressionType}.
Variable CompressionTypeNone : CompressionType.
Variable CompressionTypeSnappy : CompressionType.
Variable newSnappyStreamStore : StreamStore W -> StreamStore W.

Local Abbreviation New :=
  (NewMessageSource CompressionTypeNone CompressionTypeSnappy newSnappyStreamStore).

(** C9.  A config whose [PollPeriod] is zero gives a source that polls
    every 5 seconds, that is 5,000,000,000 ns; any other [PollPeriod]
    is kept as it is. *)
Theorem default_poll_period (store : StreamStore W)
    (config : MessageSourceConfig CompressionType) :
  (PollPeriod config = 0 ->
     pollPeriod (New store config) = 5 * Second /\
     pollPeriod (New store config) = 5000000000) /\
  (PollPeriod config <> 0 ->
     pollPeriod (New store config) = PollPeriod config).
Proof.
  unfold NewMessageSource. cbn [pollPeriod]. split; intros H.
  - rewrite H. cbn. split; reflexivity.
  - destruct (Z.eqb_spec (PollPeriod config) 0); [contradiction|reflexivity].
Qed.

(** C10.  A [CompressionType] that is neither [CompressionTypeNone] nor
    [CompressionTypeSnappy] is not rejected: the source is built on the
    stream store as given, and is the source that
    [CompressionTypeNone] would have given. *)
Theorem unknown_compression_is_none (store : StreamStore W)
    (config : MessageSourceConfig CompressionType) :
  Compression config <> CompressionTypeNone ->
  Compression config <> CompressionTypeSnappy ->
  streamstore (New store config) = store /\
  New store config =
    New store {| Path := Path config; PollPeriod := PollPeriod config;
                       Compression := CompressionTypeNone |}.
Proof.
  intros Hn Hs. unfold NewMessageSource. cbn [Compression Path PollPeriod].
  rewrite (decide_False (P := Compression config = CompressionTypeNone)) by assumption.
  rewrite (decide_False (P := Compression config = CompressionTypeSnappy)) by assumption.
  rewrite (decide_True (P := CompressionTypeNone = CompressionTypeNone)) by reflexivity.
  cbn [pollPeriod]. split; [|reflexivity].
  destruct (PollPeriod config =? 0); reflexivity.
Qed.

End ConstructionFacts.

(** ** How the loop ends *)

Section Endings.

Context {W : Type}.
Variable mq : MessageSource W.
Variable ctx : CancelContext W.
Variable handler : ConsumerMessageHandler W.

Local Abbreviation step := (step mq ctx handler).
Local Abbreviation run := (run mq ctx handler).
Local Abbreviation graceful := (graceful_cancel mq ctx).
Local Abbreviation failure := (failure mq ctx handler).

(** A pass from the wait loop returns nil only by a graceful
    cancellation. *)
Lemma waitLoop_returns (c : config W) (seq : Z) (r : option error) :
  pc c = WaitLoop seq ->
  returned (waitLoop mq ctx c seq) = Some r ->
  match r with
  | None => graceful c
  | Some e => failure c e
  end.
Proof.
  intros Hpc. unfold waitLoop.
  destruct (OpenReadCloser _ _ _) as [[rc|err] w] eqn:Hopen; [discriminate|].
  destruct (IsNotExist err) eqn:Hne; cbn [negb].
  - destruct (Select ctx (pollPeriod mq) w) as [[|] w'] eqn:Hsel; [|discriminate].
    destruct (decide _) as [Hg|Hg]; intros H; inversion H; subst.
    + exists seq, err, w, w'. auto.
    + eapply ContextFailed; eauto.
  - intros H; inversion H; subst. eapply OpenFailed; eauto.
Qed.

Lemma readLoop_returns (c : config W) (seq : Z) (rc : ReadCloser) (r : option error) :
  pc c = ReadLoop seq rc ->
  returned (readLoop handler c seq rc) = Some r ->
  exists e, r = Some e /\ failure c e.
Proof.
  intros Hpc. destruct (ReadFull rc 4) as [[lenBytes|err] rc1] eqn:Hlen.
  - destruct (Z.eq_dec (Uint32 lenBytes) 0) as [Hz|Hnz].
    + rewrite (readLoop_end_marker _ _ _ _ _ _ Hlen Hz).
      destruct (Read rc1 1) as [[buf err] rc2] eqn:Hread.
      destruct (decide _) as [Hd|Hd]; [|discriminate].
      intros H; inversion H; subst. eexists; split; [reflexivity|].
      eapply EndMarkerFailed; eauto.
    + rewrite (readLoop_payload _ _ _ _ _ _ Hlen Hnz).
      destruct (ReadFull rc1 _) as [[buf|err] rc2] eqn:Hbuf.
      * destruct (handler buf (world c)) as [[e|] w] eqn:Hh; [|discriminate].
        intros H; inversion H; subst. eexists; split; [reflexivity|].
        eapply HandlerFailed; eauto.
      * intros H; inversion H; subst. eexists; split; [reflexivity|].
        eapply PayloadFailed; eauto.
  - unfold readLoop. rewrite Hlen. intros H; inversion H; subst.
    eexists; split; [reflexivity|]. eapply LengthFailed; eauto.
Qed.

Lemma closeSegment_returns (c : config W) (seq : Z) (rc : ReadCloser) (r : option error) :
  pc c = Exhausted seq rc ->
  returned (closeSegment c seq rc) = Some r ->
  exists e, r = Some e /\ failure c e.
Proof.
  intros Hpc. unfold closeSegment. destruct (Close rc) as [e|] eqn:Hc; [|discriminate].
  intros H; inversion H; subst. eexists; split; [reflexivity|].
  eapply CloseFailed; eauto.
Qed.

(** What the pass that returns was. *)
Lemma step_returns (c : config W) (r : option error) :
  returned c = None ->
  returned (step c) = Some r ->
  match r with
  | None => graceful c
  | Some e => failure c e
  end.
Proof.
  intros Hrun Hret. destruct (pc c) as [seq|seq rc|seq rc|err] eqn:Hpc.
  - rewrite (step_WaitLoop _ _ _ _ _ Hpc) in Hret.
    exact (waitLoop_returns c seq r Hpc Hret).
  - rewrite (step_ReadLoop _ _ _ _ _ _ Hpc) in Hret.
    destruct (readLoop_returns _ _ _ _ Hpc Hret) as (e & -> & Hf). exact Hf.
  - rewrite (step_Exhausted _ _ _ _ _ _ Hpc) in Hret.
    destruct (closeSegment_returns _ _ _ _ Hpc Hret) as (e & -> & Hf). exact Hf.
  - unfold returned in Hrun. now rewrite Hpc in Hrun.
Qed.

(** The pass at which a finished run returned. *)
Lemma run_returns (fuel : nat) (c : config W) (r : option error) :
  returned c = None ->
  returned (run fuel c) = Some r ->
  exists n, (n < fuel)%nat /\ returned (run n c) = None /\
            returned (step (run n c)) = Some r.
Proof.
  intros Hc. induction fuel as [|fuel IH]; intros Hr.
  - cbn in Hr. congruence.
  - rewrite run_S in Hr. destruct (returned (run fuel c)) as [r'|] eqn:Hprev.
    + apply returned_Some in Hprev as Hpc.
      rewrite (step_Return _ _ _ _ _ Hpc) in Hr.
      destruct IH as (n & Hn & H1 & H2); [congruence|].
      exists n. auto with lia.
    + exists fuel. auto with lia.
Qed.


End Endings.

(** ** The order of consumption *)

Lemma touched_app (l1 l2 : list event) : touched (l1 ++ l2) = touched l1 ++ touched l2.
Proof. apply omap_app. Qed.

Lemma closed_app (l1 l2 : list event) : closed (l1 ++ l2) = closed l1 ++ closed l2.
Proof. apply omap_app. Qed.

Lemma handled_app (l1 l2 : list event) : handled (l1 ++ l2) = handled l1 ++ handled l2.
Proof. apply omap_app. Qed.

Lemma touched_deferred (l : list Z) : touched (map EvDeferredClose l) = [].
Proof. induction l; [reflexivity|assumption]. Qed.

Lemma closed_deferred (l : list Z) : closed (map EvDeferredClose l) = [].
Proof. induction l; [reflexivity|assumption]. Qed.

Lemma names_deferred (root : string) (l : list Z) :
  Forall (names_segment root) (map EvDeferredClose l).
Proof. induction l; constructor; [exact I|assumption]. Qed.

Lemma upto_S (k : nat) : upto (S k) = upto k ++ [Z.of_nat k].
Proof. unfold upto. now rewrite seq_S, map_app. Qed.

Section Order.

Context {W : Type}.
Variable mq : MessageSource W.
Variable ctx : CancelContext W.
Variable handler : ConsumerMessageHandler W.

Local Abbreviation step := (step mq ctx handler).
Local Abbreviation run := (run mq ctx handler).

Lemma pass_log_return (c : config W) (seq : Z) (evs : list event)
    (r : option error) (w : W) :
  Forall (fun z => z = seq) (touched evs) ->
  Forall (names_segment (path mq)) evs ->
  closed evs = (if pc c is Exhausted _ _ then [seq] else []) ->
  step c = return_ c r w evs ->
  exists evs', log (step c) = log c ++ evs' /\ pass_log mq ctx handler c seq evs'.
Proof.
  intros Ht Hn Hc Hs. exists (evs ++ map EvDeferredClose (defers c)).
  rewrite Hs. split; [reflexivity|]. split.
  - now rewrite touched_app, touched_deferred, app_nil_r.
  - apply Forall_app. split; [assumption|apply names_deferred].
  - now rewrite closed_app, closed_deferred, app_nil_r.
  - rewrite Hs. discriminate.
Qed.

Lemma step_log (c : config W) (seq : Z) :
  current (pc c) = Some seq ->
  exists evs, log (step c) = log c ++ evs /\ pass_log mq ctx handler c seq evs.
Proof.
  intros Hcur. destruct (pc c) as [s|s rc|s rc|err] eqn:Hpc; inversion Hcur; subst s.
  - pose proof (step_WaitLoop mq ctx handler c seq Hpc) as Hs.
    unfold waitLoop in Hs.
    destruct (OpenReadCloser _ _ _) as [[rc|err] w].
    + exists [EvOpen seq (seqToPath (path mq) seq)]. rewrite Hs.
      split; [reflexivity|]. split; rewrite ?Hpc, ?Hs; cbn.
      * repeat constructor.
      * repeat constructor.
      * reflexivity.
      * now intros ? [= <-].
    + destruct (negb (IsNotExist err)).
      * eapply pass_log_return; [..|exact Hs]; rewrite ?Hpc; repeat constructor.
      * destruct (Select ctx (pollPeriod mq) w) as [[|] w'].
        -- destruct (decide _);
             (eapply pass_log_return; [..|exact Hs]; rewrite ?Hpc; repeat constructor).
        -- eexists. rewrite Hs. split; [reflexivity|].
           split; rewrite ?Hpc, ?Hs; cbn; repeat constructor. now intros ? [= <-].
  - pose proof (step_ReadLoop mq ctx handler c seq rc Hpc) as Hs.
    unfold readLoop in Hs.
    destruct (ReadFull rc 4) as [[lenBytes|err] rc1].
    + destruct (_ =? 0).
      * destruct (Read rc1 1) as [[buf err] rc2]. destruct (decide _).
        -- eapply pass_log_return; [..|exact Hs]; rewrite ?Hpc; repeat constructor.
        -- exists []. rewrite Hs. split; [reflexivity|].
           split; rewrite ?Hpc, ?Hs; cbn; repeat constructor. now intros ? [= <-].
      * destruct (ReadFull rc1 _) as [[buf|err] rc2].
        -- destruct (handler buf (world c)) as [[err|] w].
           ++ eapply pass_log_return; [..|exact Hs]; rewrite ?Hpc; repeat constructor.
           ++ eexists. rewrite Hs. split; [reflexivity|].
              split; rewrite ?Hpc, ?Hs; cbn; repeat constructor. now intros ? [= <-].
        -- eapply pass_log_return; [..|exact Hs]; rewrite ?Hpc; repeat constructor.
    + eapply pass_log_return; [..|exact Hs]; rewrite ?Hpc; repeat constructor.
  - pose proof (step_Exhausted mq ctx handler c seq rc Hpc) as Hs.
    unfold closeSegment in Hs. destruct (Close rc).
    + eapply pass_log_return; [..|exact Hs]; rewrite ?Hpc; repeat constructor.
    + eexists. rewrite Hs. split; [reflexivity|].
      split; rewrite ?Hpc, ?Hs; cbn; repeat constructor. now intros ? [= <-].
Qed.

Lemma in_order_start (w : W) : in_order mq 0 (start w).
Proof.
  split; [constructor|]. split; [constructor|].
  exists 0%nat. split; [lia|]. split; [reflexivity|].
  intros seq [= <-]. split; [reflexivity|constructor].
Qed.

Lemma in_order_step (n : nat) (c : config W) :
  Z.of_nat (S n) < 2 ^ 63 -> in_order mq n c -> in_order mq (S n) (step c).
Proof.
  intros Hn (Hsorted & Hnames & j & Hj & Hclosed & Hcur).
  destruct (current (pc c)) as [seq|] eqn:Hc.
  - destruct (Hcur seq eq_refl) as [-> Hle].
    destruct (step_log c _ Hc) as (evs & Hlog & [Ht Hnm Hcl Hnext]).
    rewrite Forall_forall in Ht, Hle.
    assert (Hsorted' : StronglySorted Z.le (touched (log c ++ evs))).
    { rewrite touched_app. apply StronglySorted_app_2; [|assumption|].
      - intros x1 x2 H1 H2. rewrite (Ht x2 H2). now apply Hle.
      - clear -Ht. induction (touched evs) as [|z l IH]; constructor.
        + apply IH. intros x Hx. apply Ht. now right.
        + apply Forall_forall. intros x Hx.
          rewrite (Ht z) by now left. rewrite (Ht x) by now right. lia. }
    rewrite <- Hlog in Hsorted'.
    split; [exact Hsorted'|].
    split; [rewrite Hlog; apply Forall_app; now split|].
    destruct (pc c) as [s|s rc|s rc|err] eqn:Hpc; try discriminate.
    + exists j. split; [lia|]. split; [now rewrite Hlog, closed_app, Hcl, app_nil_r|].
      intros seq' H'. rewrite (Hnext _ H'). split; [reflexivity|].
      rewrite Hlog, touched_app. apply Forall_app. rewrite !Forall_forall.
      split; [exact Hle|]. intros x Hx. rewrite (Ht x Hx). lia.
    + exists j. split; [lia|]. split; [now rewrite Hlog, closed_app, Hcl, app_nil_r|].
      intros seq' H'. rewrite (Hnext _ H'). split; [reflexivity|].
      rewrite Hlog, touched_app. apply Forall_app. rewrite !Forall_forall.
      split; [exact Hle|]. intros x Hx. rewrite (Ht x Hx). lia.
    + exists (S j). split; [lia|].
      split; [now rewrite Hlog, closed_app, Hcl, Hclosed, upto_S|].
      intros seq' H'. rewrite (Hnext _ H'), wrapInt_small by lia.
      split; [lia|].
      rewrite Hlog, touched_app. apply Forall_app. rewrite !Forall_forall.
      split.
      * intros x Hx. specialize (Hle x Hx). lia.
      * intros x Hx. rewrite (Ht x Hx). lia.
  - destruct (pc c) as [s|s rc|s rc|err] eqn:Hpc; try discriminate.
    rewrite (step_Return mq ctx handler c err Hpc).
    split; [assumption|]. split; [assumption|].
    exists j. split; [lia|]. split; [assumption|]. rewrite Hpc. discriminate.
Qed.

(** After any number of passes the log is in order. *)
Lemma in_order_run (n : nat) (w : W) :
  Z.of_nat n < 2 ^ 63 -> in_order mq n (run n (start w)).
Proof.
  induction n as [|n IH]; intros Hn; [apply in_order_start|].
  rewrite run_S. apply in_order_step; [assumption|]. apply IH. lia.
Qed.

End Order.

(** ** Frames *)

Lemma byteOfZ_byteZ (b : byte) : byteOfZ (byteZ b) = b.
Proof.
  unfold byteOfZ, byteZ. now rewrite N2Z.id, Byte.of_to_N.
Qed.

(** The four length bytes are the encoding of the number they decode
    to. *)
Lemma PutUint32_Uint32 (l : list byte) :
  length l = 4%nat -> PutUint32 (Uint32 l) = l.
Proof.
  intros Hl. destruct (length_4 l Hl) as (b0 & b1 & b2 & b3 & ->).
  rewrite Uint32_little_endian. unfold PutUint32.
  pose proof (byteZ_range b0). pose proof (byteZ_range b1).
  pose proof (byteZ_range b2). pose proof (byteZ_range b3).
  set (v := byteZ b0 + 2 ^ 8 * byteZ b1 + 2 ^ 16 * byteZ b2 + 2 ^ 24 * byteZ b3).
  assert (E0 : v mod 256 = byteZ b0).
  { symmetry. apply (Z.mod_unique_pos v 256
      (byteZ b1 + 2 ^ 8 * byteZ b2 + 2 ^ 16 * byteZ b3)); [lia|]. unfold v. lia. }
  assert (E1 : v / 2 ^ 8 mod 256 = byteZ b1).
  { replace (v / 2 ^ 8) with (byteZ b1 + 2 ^ 8 * byteZ b2 + 2 ^ 16 * byteZ b3).
    - symmetry. apply (Z.mod_unique_pos _ 256 (byteZ b2 + 2 ^ 8 * byteZ b3)); lia.
    - apply (Z.div_unique_pos v (2 ^ 8) _ (byteZ b0)); [lia|]. unfold v. lia. }
  assert (E2 : v / 2 ^ 16 mod 256 = byteZ b2).
  { replace (v / 2 ^ 16) with (byteZ b2 + 2 ^ 8 * byteZ b3).
    - symmetry. apply (Z.mod_unique_pos _ 256 (byteZ b3)); lia.
    - apply (Z.div_unique_pos v (2 ^ 16) _ (byteZ b0 + 2 ^ 8 * byteZ b1)); [lia|].
      unfold v. lia. }
  assert (E3 : v / 2 ^ 24 mod 256 = byteZ b3).
  { replace (v / 2 ^ 24) with (byteZ b3).
    - apply Z.mod_small. lia.
    - apply (Z.div_unique_pos v (2 ^ 24) _
        (byteZ b0 + 2 ^ 8 * byteZ b1 + 2 ^ 16 * byteZ b2)); [lia|]. unfold v. lia. }
  rewrite E0, E1, E2, E3, !byteOfZ_byteZ. reflexivity.
Qed.

Lemma length_PutUint32 (v : Z) : length (PutUint32 v) = 4%nat.
Proof. reflexivity. Qed.

Lemma handled_deferred (l : list Z) : handled (map EvDeferredClose l) = [].
Proof. induction l; [reflexivity|assumption]. Qed.

Lemma handled_segment (seq : Z) (fullname : string) (msgs : list (list byte)) :
  handled ([EvOpen seq fullname] ++ map (EvHandler seq) msgs ++ [EvClose seq]) = msgs.
Proof.
  cbn [app]. change (handled (EvOpen seq fullname :: ?l)) with (handled l).
  rewrite handled_app, app_nil_r.
  induction msgs as [|m msgs IH]; [reflexivity|].
  cbn [map]. change (handled (EvHandler seq m :: ?l)) with (m :: handled l).
  now rewrite IH.
Qed.

Lemma closed_segment (seq : Z) (fullname : string) (msgs : list (list byte)) :
  closed ([EvOpen seq fullname] ++ map (EvHandler seq) msgs ++ [EvClose seq]) = [seq].
Proof.
  cbn [app]. change (closed (EvOpen seq fullname :: ?l)) with (closed l).
  rewrite closed_app.
  replace (closed (map (EvHandler seq) msgs)) with (@nil Z); [reflexivity|].
  induction msgs as [|m msgs IH]; [reflexivity|exact IH].
Qed.

Section Frames.

Context {W : Type}.
Variable mq : MessageSource W.
Variable ctx : CancelContext W.
Variable handler : ConsumerMessageHandler W.

Local Abbreviation step := (step mq ctx handler).
Local Abbreviation run := (run mq ctx handler).

(** A pass that gives a message to the handler has taken one frame, the
    one at the front of what was left of the stream. *)
Lemma pass_takes_frame (c : config W) (seq : Z) (rc rc1 rc2 : ReadCloser)
    (lenBytes buf : list byte) :
  pc c = ReadLoop seq rc ->
  ReadFull rc 4 = (inl lenBytes, rc1) ->
  0 < Uint32 lenBytes ->
  ReadFull rc1 (Z.to_nat (Uint32 lenBytes)) = (inl buf, rc2) ->
  framable buf /\
  stream (script rc) = frame buf ++ stream (script rc2) /\
  handled (log (step c)) = handled (log c) ++ [buf] /\
  (forall w, handler buf (world c) = (None, w) ->
     step c = goto c (ReadLoop seq rc2) w [EvHandler seq buf]).
Proof.
  intros Hpc Hlen Hpos Hbuf.
  destruct (read_frame _ _ _ _ _ Hlen Hbuf) as (Hl4 & Htake & Hbl & Hbt & Hrest).
  pose proof (Uint32_range lenBytes) as Hrange.
  assert (Hstep : step c =
            match handler buf (world c) with
            | (Some err, w) => return_ c (Some err) w [EvHandler seq buf]
            | (None, w) => goto c (ReadLoop seq rc2) w [EvHandler seq buf]
            end).
  { rewrite (step_ReadLoop mq ctx handler c seq rc Hpc).
    rewrite (readLoop_payload handler c seq rc rc1 lenBytes Hlen) by lia.
    now rewrite Hbuf. }
  split; [unfold framable; lia|]. split; [|split].
  - unfold frame. rewrite Hbl, PutUint32_Uint32 by assumption.
    rewrite Hrest. rewrite Hbt at 1. rewrite <- app_assoc, take_drop.
    rewrite Htake at 1. now rewrite take_drop.
  - rewrite Hstep. destruct (handler buf (world c)) as [[err|] w]; cbn [log return_ goto].
    + now rewrite !handled_app, handled_deferred, app_nil_r.
    + now rewrite handled_app.
  - intros w Hh. now rewrite Hstep, Hh.
Qed.

(** The same pass on a reader over bytes that start with a frame. *)
Lemma step_frame (c : config W) (seq : Z) (m rest : list byte) (ce : option error) :
  pc c = ReadLoop seq (set_close (bytesReader (frame m ++ rest)) ce) ->
  framable m ->
  step c =
    match handler m (world c) with
    | (Some err, w) => return_ c (Some err) w [EvHandler seq m]
    | (None, w) => goto c (ReadLoop seq (set_close (bytesReader rest) ce)) w
                     [EvHandler seq m]
    end.
Proof.
  intros Hpc Hm. unfold framable in Hm.
  rewrite (step_ReadLoop mq ctx handler c seq _ Hpc).
  assert (Hlen : ReadFull (set_close (bytesReader (frame m ++ rest)) ce) 4 =
            (inl (PutUint32 (Z.of_nat (length m))),
             set_close (bytesReader (m ++ rest)) ce)).
  { unfold frame. rewrite <- app_assoc.
    rewrite ReadFull_bytesReader by (rewrite length_app, length_PutUint32; lia).
    rewrite (take_app_length' (PutUint32 _)), (drop_app_length' (PutUint32 _))
      by reflexivity.
    reflexivity. }
  rewrite (readLoop_payload handler c seq _ _ _ Hlen)
    by (rewrite Uint32_PutUint32; lia).
  rewrite Uint32_PutUint32, Nat2Z.id by lia.
  rewrite ReadFull_bytesReader by (rewrite length_app; lia).
  now rewrite take_app_length, drop_app_length.
Qed.

(** The pass over the end marker at the very end of the bytes. *)
Lemma step_endMarker (c : config W) (seq : Z) (ce : option error) :
  pc c = ReadLoop seq (set_close (bytesReader endMarker) ce) ->
  step c = goto c (Exhausted seq (set_close (bytesReader []) ce)) (world c) [].
Proof.
  intros Hpc. rewrite (step_ReadLoop mq ctx handler c seq _ Hpc). reflexivity.
Qed.

(** The pass over an end marker that is followed by a byte. *)
Lemma step_endMarker_trailing (c : config W) (seq : Z) (b : byte)
    (rest : list byte) (ce : option error) :
  pc c = ReadLoop seq (set_close (bytesReader (endMarker ++ b :: rest)) ce) ->
  step c = return_ c (Some (Errorf
             "Was able to read past end marker. This is broken, bailing out."))
             (world c) [].
Proof.
  intros Hpc. rewrite (step_ReadLoop mq ctx handler c seq _ Hpc).
  destruct rest; reflexivity.
Qed.

(** Draining the frames of an in-memory reader: the handler gets the
    messages one by one in the order of the bytes.  [Inv] is what is
    known of the world throughout, under which the handler accepts. *)
Lemma drain_frames (Inv : W -> Prop) (msgs : list (list byte)) :
  forall (c : config W) seq rest ce,
  Forall framable msgs ->
  (forall m w, Inv w -> (handler m w).1 = None /\ Inv (handler m w).2) ->
  Inv (world c) ->
  pc c = ReadLoop seq (set_close (bytesReader (concat (map frame msgs) ++ rest)) ce) ->
  pc (run (length msgs) c) = ReadLoop seq (set_close (bytesReader rest) ce) /\
  log (run (length msgs) c) = log c ++ map (EvHandler seq) msgs /\
  defers (run (length msgs) c) = defers c /\
  Inv (world (run (length msgs) c)).
Proof.
  induction msgs as [|m msgs IH]; intros c seq rest ce Hfr Hacc Hinv Hpc.
  - cbn. rewrite app_nil_r. auto.
  - inversion Hfr as [|? ? Hm Hms]; subst.
    cbn [map concat] in Hpc. rewrite <- app_assoc in Hpc.
    cbn [length]. rewrite run_succ.
    pose proof (step_frame c seq m _ ce Hpc Hm) as Hs.
    destruct (Hacc m (world c) Hinv) as [Hh Hw].
    destruct (handler m (world c)) as [r w]. cbn in Hh, Hw. subst r.
    destruct (IH (step c) seq rest ce Hms Hacc) as (H1 & H2 & H3 & H4).
    { rewrite Hs. exact Hw. }
    { now rewrite Hs. }
    rewrite H1, H2, H3. split; [reflexivity|]. split; [|split; [|exact H4]].
    + rewrite Hs. cbn [log goto map]. now rewrite <- app_assoc.
    + now rewrite Hs.
Qed.

End Frames.

(** ** Segment after segment *)

Section Segments.

Context {W : Type}.
Variable mq : MessageSource W.
Variable ctx : CancelContext W.
Variable handler : ConsumerMessageHandler W.

Local Abbreviation step := (step mq ctx handler).
Local Abbreviation run := (run mq ctx handler).

(** C2, as amended.  [ConsumeMessages] starts at sequence number 0.
    Whatever the environment does, the log proceeds segment by segment
    in increasing order, the segments closed so far being 0, 1, ...
    without a gap, and every open is of the path of its segment.
    Within a segment each pass gives the handler the frame at the front
    of what is left of the stream, so the frames arrive in the order of
    the bytes.  When the segment is exhausted the handle is closed;
    if [Close] reports no error the sequence number goes up by one and
    the next pass is the acquisition of that segment, and if it reports
    an error, that error is returned. *)
Theorem consume_in_order :
  (forall w : W, pc (start w) = WaitLoop 0 /\ log (start w) = []) /\
  (forall n (w : W), Z.of_nat n < 2 ^ 63 -> in_order mq n (run n (start w))) /\
  (forall (c : config W) seq rc rc1 rc2 lenBytes buf,
     pc c = ReadLoop seq rc ->
     ReadFull rc 4 = (inl lenBytes, rc1) ->
     0 < Uint32 lenBytes ->
     ReadFull rc1 (Z.to_nat (Uint32 lenBytes)) = (inl buf, rc2) ->
     stream (script rc) = frame buf ++ stream (script rc2) /\
     handled (log (step c)) = handled (log c) ++ [buf] /\
     (forall w, handler buf (world c) = (None, w) ->
        step c = goto c (ReadLoop seq rc2) w [EvHandler seq buf])) /\
  (forall msgs (c : config W) seq rest ce,
     Forall framable msgs ->
     (forall m w, (handler m w).1 = None) ->
     pc c = ReadLoop seq (set_close (bytesReader (concat (map frame msgs) ++ rest)) ce) ->
     pc (run (length msgs) c) = ReadLoop seq (set_close (bytesReader rest) ce) /\
     log (run (length msgs) c) = log c ++ map (EvHandler seq) msgs) /\
  (forall (c : config W) seq rc,
     pc c = Exhausted seq rc ->
     closed (log (step c)) = closed (log c) ++ [seq] /\
     (Close rc = None ->
        step c = goto c (WaitLoop (wrapInt (seq + 1))) (world c) [EvClose seq] /\
        (0 <= seq < maxInt -> wrapInt (seq + 1) = seq + 1)) /\
     (forall e, Close rc = Some e ->
        step c = return_ c (Some e) (world c) [EvClose seq])).
Proof.
  split; [auto|]. split; [apply in_order_run|]. split; [|split].
  - intros c seq rc rc1 rc2 lenBytes buf Hpc Hlen Hpos Hbuf.
    destruct (pass_takes_frame mq ctx handler c seq rc rc1 rc2 lenBytes buf
                Hpc Hlen Hpos Hbuf) as (_ & H1 & H2 & H3). auto.
  - intros msgs c seq rest ce Hfr Hacc Hpc.
    destruct (drain_frames mq ctx handler (fun _ => True) msgs c seq rest ce Hfr)
      as (H1 & H2 & _); auto.
  - intros c seq rc Hpc. rewrite (step_Exhausted mq ctx handler c seq rc Hpc).
    unfold closeSegment. destruct (Close rc) as [e|]; cbn [log return_ goto].
    + rewrite !closed_app, closed_deferred, app_nil_r.
      split; [reflexivity|]. split; [discriminate|]. now intros ? [= <-].
    + rewrite closed_app. split; [reflexivity|]. split; [|discriminate].
      intros _. split; [reflexivity|]. unfold maxInt. intros Hs.
      apply wrapInt_small. lia.
Qed.

(** One whole segment of an in-memory store: open, drain, end marker,
    close. *)
Lemma consume_segment (Inv : W -> Prop) (c : config W) (i : nat)
    (msgs : list (list byte)) (w : W) :
  pc c = WaitLoop (Z.of_nat i) ->
  OpenReadCloser (streamstore mq) (seqToPath (path mq) (Z.of_nat i)) (world c) =
    (inl (bytesReader (segment msgs)), w) ->
  Inv w ->
  Forall framable msgs ->
  (forall m w, Inv w -> (handler m w).1 = None /\ Inv (handler m w).2) ->
  Z.of_nat i < maxInt ->
  pc (run (length msgs + 3) c) = WaitLoop (Z.of_nat (S i)) /\
  log (run (length msgs + 3) c) =
    log c ++ [EvOpen (Z.of_nat i) (seqToPath (path mq) (Z.of_nat i))] ++
    map (EvHandler (Z.of_nat i)) msgs ++ [EvClose (Z.of_nat i)] /\
  Inv (world (run (length msgs + 3) c)).
Proof.
  intros Hpc Hopen Hinv Hfr Hacc Hi.
  replace (length msgs + 3)%nat with (1 + (length msgs + (1 + 1)))%nat by lia.
  rewrite !run_add.
  pose (c1 := {| pc := ReadLoop (Z.of_nat i)
                          (set_close (bytesReader (segment msgs)) None);
                 world := w; defers := Z.of_nat i :: defers c;
                 log := log c ++ [EvOpen (Z.of_nat i)
                                    (seqToPath (path mq) (Z.of_nat i))] |}).
  assert (H1 : run 1 c = c1).
  { rewrite run_1, (step_WaitLoop mq ctx handler c _ Hpc).
    unfold waitLoop. rewrite Hopen. unfold c1. destruct (segment msgs); reflexivity. }
  rewrite H1.
  destruct (drain_frames mq ctx handler Inv msgs c1 (Z.of_nat i) endMarker None
              Hfr Hacc Hinv eq_refl) as (H2 & H3 & _ & H5).
  set (c2 := run (length msgs) c1) in *.
  assert (H4 : run 1 c2 =
            goto c2 (Exhausted (Z.of_nat i) (set_close (bytesReader []) None))
                 (world c2) []).
  { rewrite run_1. now apply step_endMarker. }
  rewrite H4, run_1.
  rewrite (step_Exhausted mq ctx handler _ (Z.of_nat i) (set_close (bytesReader []) None))
    by reflexivity.
  unfold closeSegment. cbn [Close set_close close_err goto pc log].
  rewrite H3. unfold c1. cbn [log].
  rewrite wrapInt_small by (unfold maxInt in Hi; lia).
  rewrite app_nil_r, <- !app_assoc. split; [f_equal; lia|]. split; [reflexivity|].
  exact H5.
Qed.

(** Segment after segment of an in-memory store. *)
Lemma replay_run (Inv : W -> Prop) (segs : list (list (list byte))) :
  forall (i : nat) (c : config W),
  pc c = WaitLoop (Z.of_nat i) ->
  Inv (world c) ->
  (forall (j : nat) msgs w, segs !! j = Some msgs -> Inv w ->
     exists w', OpenReadCloser (streamstore mq)
                  (seqToPath (path mq) (Z.of_nat (i + j))) w =
                (inl (bytesReader (segment msgs)), w') /\ Inv w') ->
  Forall (Forall framable) segs ->
  (forall m w, Inv w -> (handler m w).1 = None /\ Inv (handler m w).2) ->
  Z.of_nat (i + length segs) <= maxInt ->
  exists fuel,
    pc (run fuel c) = WaitLoop (Z.of_nat (i + length segs)) /\
    handled (log (run fuel c)) = handled (log c) ++ concat segs /\
    closed (log (run fuel c)) =
      closed (log c) ++ map Z.of_nat (List.seq i (length segs)) /\
    Inv (world (run fuel c)).
Proof.
  induction segs as [|msgs segs IH]; intros i c Hpc Hinv Hopen Hfr Hacc Hi.
  - exists 0%nat. cbn. rewrite !app_nil_r, Nat.add_0_r. auto.
  - inversion Hfr as [|? ? Hm Hms]; subst.
    destruct (Hopen 0%nat msgs (world c) eq_refl Hinv) as (w' & Hop & Hw').
    rewrite Nat.add_0_r in Hop. cbn [length] in Hi.
    destruct (consume_segment Inv c i msgs w' Hpc Hop Hw' Hm Hacc ltac:(lia))
      as (H1 & H2 & H3).
    destruct (IH (S i) (run (length msgs + 3) c) H1 H3)
      as (fuel & E1 & E2 & E3 & E4).
    + intros j ms w Hj. replace (S i + j)%nat with (i + S j)%nat by lia.
      now apply Hopen.
    + exact Hms.
    + exact Hacc.
    + lia.
    + exists (length msgs + 3 + fuel)%nat. rewrite run_add, E1, E2, E3, H2.
      rewrite (handled_app (log c)), handled_segment.
      rewrite (closed_app (log c)), closed_segment.
      cbn [length concat List.seq map]. rewrite <- !app_assoc.
      split; [f_equal; lia|]. split; [reflexivity|]. split; [reflexivity|exact E4].
Qed.

(** X1.  A store that holds the segments [i], [i+1], ... as in-memory files,
    each closed by its end marker, and a handler that accepts: with
    fuel enough, the handler has been given the messages of all of
    them, in the order of writing, every segment has been closed in
    turn, and the source is at the acquisition of the next one.  [Inv]
    is what is known of the world throughout. *)
Theorem replays_segments (Inv : W -> Prop) (segs : list (list (list byte))) :
  forall (i : nat) (c : config W),
  pc c = WaitLoop (Z.of_nat i) ->
  Inv (world c) ->
  (forall (j : nat) msgs w, segs !! j = Some msgs -> Inv w ->
     exists w', OpenReadCloser (streamstore mq)
                  (seqToPath (path mq) (Z.of_nat (i + j))) w =
                (inl (bytesReader (segment msgs)), w') /\ Inv w') ->
  Forall (Forall framable) segs ->
  (forall m w, Inv w -> (handler m w).1 = None /\ Inv (handler m w).2) ->
  Z.of_nat (i + length segs) <= maxInt ->
  exists fuel,
    pc (run fuel c) = WaitLoop (Z.of_nat (i + length segs)) /\
    handled (log (run fuel c)) = handled (log c) ++ concat segs /\
    closed (log (run fuel c)) =
      closed (log c) ++ map Z.of_nat (List.seq i (length segs)).
Proof.
  intros i c Hpc Hinv Hopen Hfr Hacc Hi.
  destruct (replay_run Inv segs i c Hpc Hinv Hopen Hfr Hacc Hi)
    as (fuel & H1 & H2 & H3 & _).
  exists fuel. auto.
Qed.

(** X2.  With nothing more written and the context done, the source reads
    all there is before it looks at the context: the segments written
    are delivered in full, each is closed, and only the wait for the
    segment that is missing ends the run, without error when the
    context was cancelled or ran into its deadline. *)
Theorem drains_then_stops (Inv : W -> Prop) (segs : list (list (list byte))) (w : W) :
  Inv w ->
  (forall (j : nat) msgs w, segs !! j = Some msgs -> Inv w ->
     exists w', OpenReadCloser (streamstore mq)
                  (seqToPath (path mq) (Z.of_nat j)) w =
                (inl (bytesReader (segment msgs)), w') /\ Inv w') ->
  (forall w, Inv w ->
     exists e w1 w2,
       OpenReadCloser (streamstore mq)
         (seqToPath (path mq) (Z.of_nat (length segs))) w = (inr e, w1) /\
       IsNotExist e = true /\
       Select ctx (pollPeriod mq) w1 = (CtxDone, w2) /\
       (Err ctx w2 = DeadlineExceeded \/ Err ctx w2 = Canceled)) ->
  Forall (Forall framable) segs ->
  (forall m w, Inv w -> (handler m w).1 = None /\ Inv (handler m w).2) ->
  Z.of_nat (length segs) <= maxInt ->
  exists fuel,
    ConsumeMessages mq ctx handler fuel w = Some None /\
    handled (log (run fuel (start w))) = concat segs /\
    closed (log (run fuel (start w))) = upto (length segs).
Proof.
  intros Hinv Hopen Hstop Hfr Hacc Hi.
  destruct (replay_run Inv segs 0 (start w) eq_refl Hinv Hopen Hfr Hacc Hi)
    as (fuel & H1 & H2 & H3 & H4).
  cbn [Nat.add] in H1.
  destruct (Hstop _ H4) as (e & w1 & w2 & Ho & Hne & Hsel & Hg).
  exists (fuel + 1)%nat. unfold ConsumeMessages. rewrite run_add, run_1.
  rewrite (step_WaitLoop mq ctx handler _ _ H1). unfold waitLoop.
  rewrite Ho, Hne. cbn [negb]. rewrite Hsel, decide_True by exact Hg.
  split; [reflexivity|]. cbn [log return_].
  rewrite !handled_app, !closed_app, handled_deferred, closed_deferred, H2, H3.
  cbn. rewrite !app_nil_r. auto.
Qed.

End Segments.

(** ** Runs on concrete environments *)

Section Runs.

Import Examples.

Local Abbreviation accept := (Mem.handler Mem.accept).
Local Abbreviation stepM := (step source Mem.ctx accept).
Local Abbreviation runM := (run source Mem.ctx accept).
Local Abbreviation close_failed := (Some (ErrOther "close failed")).

(** The test data of the repository's tests: segments 0 and 1 of root
    [/foo] are the files [00] and [01] of [/foo/00/00/00/00/00/00]. *)
Example seqToPath_tests :
  seqDir "/foo" 0 = "/foo/00/00/00/00/00/00" /\
  seqDir "/foo" 1 = "/foo/00/00/00/00/00/00" /\
  seqToPath "/foo" 0 = "/foo/00/00/00/00/00/00/00" /\
  seqToPath "/foo" 1 = "/foo/00/00/00/00/00/00/01" /\
  seqToPath "/foo" 0x0123456789abcd = "/foo/01/23/45/67/89/ab/cd".
Proof. repeat apply conj; vm_compute; reflexivity. Qed.

(** Two segments written and closed, the third not there: the source
    delivers the three messages in order, polls twice for segment 2 and
    stops without error when the deadline is reached. *)
Example consume_two_segments :
  ConsumeMessages source Mem.ctx accept 11 (written 2 DeadlineExceeded) = None /\
  ConsumeMessages source Mem.ctx accept 12 (written 2 DeadlineExceeded) = Some None /\
  log (runM 12 (start (written 2 DeadlineExceeded))) =
    [EvOpen 0 "/q/00/00/00/00/00/00/00"; EvHandler 0 [x01; x02]; EvHandler 0 [x03];
     EvClose 0;
     EvOpen 1 "/q/00/00/00/00/00/00/01"; EvHandler 1 [x04]; EvClose 1;
     EvOpen 2 "/q/00/00/00/00/00/00/02"; EvTimer 5000000000;
     EvOpen 2 "/q/00/00/00/00/00/00/02"; EvTimer 5000000000;
     EvOpen 2 "/q/00/00/00/00/00/00/02"; EvTimer 5000000000;
     EvDeferredClose 1; EvDeferredClose 0] /\
  Mem.delivered (world (runM 12 (start (written 2 DeadlineExceeded)))) =
    [[x01; x02]; [x03]; [x04]].
Proof. repeat apply conj; vm_compute; reflexivity. Qed.

(** The check after the end marker looks at the error of the read
    only: an end marker followed by bytes is refused, while a reader
    that hands out one last byte together with [io.EOF] passes for a
    clean end. *)
Example end_marker_reads :
  returned (stepM (reading (endMarker ++ [x2a; x2b]) (empty 0 Canceled))) =
    Some (Some (Errorf
      "Was able to read past end marker. This is broken, bailing out.")) /\
  pc (stepM {| pc := ReadLoop 0 {| script := [(endMarker, None); ([x2a], Some EOF)];
                                   close_err := None |};
               world := empty 0 Canceled; defers := [0]; log := [] |}) =
    Exhausted 0 {| script := []; close_err := None |}.
Proof. split; vm_compute; reflexivity. Qed.

(** The replay theorem at the in-memory store. *)
Example replays_two_segments :
  exists fuel,
    pc (runM fuel (start (written 0 Canceled))) = WaitLoop 2 /\
    handled (log (runM fuel (start (written 0 Canceled)))) =
      [[x01; x02]; [x03]; [x04]] /\
    closed (log (runM fuel (start (written 0 Canceled)))) = [0; 1].
Proof.
  apply (replays_segments source Mem.ctx accept as_written two_segments 0
           (start (written 0 Canceled))).
  - reflexivity.
  - repeat apply conj; reflexivity.
  - intros j msgs w Hj (Hf & Hfa & Hc). exists w. split; [|now repeat apply conj].
    unfold source, Mem.source, Mem.store. cbn [streamstore OpenReadCloser path].
    rewrite Hfa, Hf, Hc, lookup_empty.
    destruct j as [|[|j]]; inversion Hj; subst; vm_compute; reflexivity.
  - repeat constructor; vm_compute; repeat apply conj; congruence.
  - intros m w H. split; [reflexivity|exact H].
  - vm_compute. discriminate.
Defined.


(** C2 as stated fails when [Close] fails: segment 0 is cleanly
    exhausted and its handle closed, yet the sequence number is not
    incremented and segment 1 is never acquired; the error of [Close]
    is returned. *)
Lemma exhausted_close_error :
  pc (runM 3 (start close_fails)) =
    Exhausted 0 (set_close (bytesReader []) close_failed) /\
  returned (runM 4 (start close_fails)) = Some close_failed /\
  log (runM 4 (start close_fails)) =
    [EvOpen 0 "/q/00/00/00/00/00/00/00"; EvHandler 0 [x01]; EvClose 0;
     EvDeferredClose 0] /\
  forall fuel, runM (4 + fuel) (start close_fails) = runM 4 (start close_fails).
Proof.
  do 3 (split; [vm_compute; reflexivity|]).
  intros fuel. rewrite run_add.
  apply (run_Return source Mem.ctx accept fuel _ close_failed).
  vm_compute. reflexivity.
Qed.


Lemma consume_in_order_witness :
  in_order source 12 (runM 12 (start (written 2 DeadlineExceeded))) /\
  stepM exhausted_close_fails =
    return_ exhausted_close_fails close_failed close_fails [EvClose 0].
Proof.
  destruct (consume_in_order source Mem.ctx accept) as (_ & H & _ & _ & Hx).
  split.
  - apply H. vm_compute. reflexivity.
  - destruct (Hx exhausted_close_fails 0
                (set_close (bytesReader []) close_failed) eq_refl) as (_ & _ & He).
    apply He. reflexivity.
Defined.

Lemma cancellation_during_wait_witness :
  returned (stepM (start (empty 0 Canceled))) = Some None /\
  returned (stepM (start (empty 0 (ErrOther "shutdown")))) =
    Some (Some (ErrOther "shutdown")).
Proof.
  split.
  - destruct (cancellation_during_wait source Mem.ctx accept
                (start (empty 0 Canceled)) 0
                (PathError "open" (seqToPath root 0) ErrNotExist)
                (empty 0 Canceled) (empty 0 Canceled)) as [H _];
      [reflexivity|vm_compute; reflexivity|reflexivity|vm_compute; reflexivity|].
    apply H. right. reflexivity.
  - destruct (cancellation_during_wait source Mem.ctx accept
                (start (empty 0 (ErrOther "shutdown"))) 0
                (PathError "open" (seqToPath root 0) ErrNotExist)
                (empty 0 (ErrOther "shutdown")) (empty 0 (ErrOther "shutdown")))
      as [_ H];
      [reflexivity|vm_compute; reflexivity|reflexivity|vm_compute; reflexivity|].
    apply H; discriminate.
Defined.


Lemma frame_decode_step_witness :
  stepM (reading (frame [x01; x02] ++ endMarker) (empty 0 Canceled)) =
    goto (reading (frame [x01; x02] ++ endMarker) (empty 0 Canceled))
         (ReadLoop 0 (bytesReader endMarker))
         (accept [x01; x02] (empty 0 Canceled)).2 [EvHandler 0 [x01; x02]] /\
  returned (stepM (reading [x05; x00] (empty 0 Canceled))) =
    Some (Some (Errorf "Could not read length (unexpected EOF)")) /\
  returned (stepM (reading (PutUint32 5 ++ [x01]) (empty 0 Canceled))) =
    Some (Some (Errorf "Could not read payload (unexpected EOF)")).
Proof.
  split; [|split].
  - destruct (frame_decode_step source Mem.ctx accept
                (reading (frame [x01; x02] ++ endMarker) (empty 0 Canceled)) 0
                (bytesReader (frame [x01; x02] ++ endMarker)) eq_refl) as (H & _).
    destruct (H (PutUint32 2) (bytesReader ([x01; x02] ++ endMarker)))
      as (_ & _ & _ & _ & Hpay); [vm_compute; reflexivity|].
    destruct Hpay as (Hd & _); [vm_compute; reflexivity|].
    destruct (Hd [x01; x02] (bytesReader endMarker)) as (_ & _ & _ & Hs);
      [vm_compute; reflexivity|].
    exact Hs.
  - destruct (frame_decode_step source Mem.ctx accept
                (reading [x05; x00] (empty 0 Canceled)) 0
                (bytesReader [x05; x00]) eq_refl) as (_ & H & _).
    apply (H ErrUnexpectedEOF (bytesReader [])). vm_compute. reflexivity.
  - destruct (frame_decode_step source Mem.ctx accept
                (reading (PutUint32 5 ++ [x01]) (empty 0 Canceled)) 0
                (bytesReader (PutUint32 5 ++ [x01])) eq_refl) as (H & _).
    destruct (H (PutUint32 5) (bytesReader [x01]))
      as (_ & _ & _ & _ & Hpay); [vm_compute; reflexivity|].
    destruct Hpay as (_ & He & _); [vm_compute; reflexivity|].
    apply (He ErrUnexpectedEOF (bytesReader [])). vm_compute. reflexivity.
Defined.

Lemma handler_error_aborts_witness :
  let c := reading (frame [x03] ++ frame [x04] ++ endMarker) (empty 0 Canceled) in
  returned (step source Mem.ctx (Mem.handler reject_03) c) =
    Some (Some (ErrOther "handler failed")) /\
  log (step source Mem.ctx (Mem.handler reject_03) c) =
    log c ++ [EvHandler 0 [x03]] ++ map EvDeferredClose [0].
Proof.
  intros c.
  destruct (handler_error_aborts source Mem.ctx (Mem.handler reject_03) c 0
              (bytesReader (frame [x03] ++ frame [x04] ++ endMarker))
              (bytesReader ([x03] ++ frame [x04] ++ endMarker))
              (bytesReader (frame [x04] ++ endMarker))
              (PutUint32 1) [x03] (ErrOther "handler failed")
              (Mem.handler reject_03 [x03] (empty 0 Canceled)).2)
    as (H1 & H2 & _);
    [reflexivity|vm_compute; reflexivity|vm_compute; discriminate|
     vm_compute; reflexivity|vm_compute; reflexivity|].
  split; [exact H1|exact H2].
Defined.


Lemma seqToPath_scheme_witness :
  seqToPath root 0x0123456789abcd =
    seqDir root 0x0123456789abcd +:+ "/" +:+ hex2 (0x0123456789abcd mod 256) /\
  String.length (seqToPath root 0x0123456789abcd) = (String.length root + 21)%nat.
Proof.
  destruct (seqToPath_scheme root 0x0123456789abcd) as (_ & _ & _ & _ & H1 & H2);
    [vm_compute; split; [discriminate|reflexivity]|].
  split; [exact H1|exact H2].
Defined.

Lemma default_poll_period_witness :
  pollPeriod (NewMessageSource 0 1 snappy_stub Mem.store (config_of 0 0)) =
    5000000000 /\
  pollPeriod (NewMessageSource 0 1 snappy_stub Mem.store
                (config_of (20 * Millisecond) 0)) = 20 * Millisecond.
Proof.
  split.
  - apply (proj1 (default_poll_period 0 1 snappy_stub Mem.store (config_of 0 0))).
    reflexivity.
  - apply (proj2 (default_poll_period 0 1 snappy_stub Mem.store
                    (config_of (20 * Millisecond) 0))).
    vm_compute. discriminate.
Defined.

Lemma unknown_compression_is_none_witness :
  streamstore (NewMessageSource 0 1 snappy_stub Mem.store (config_of 0 7)) =
    Mem.store /\
  streamstore (NewMessageSource 0 1 snappy_stub Mem.store (config_of 0 1)) =
    snappy_stub Mem.store.
Proof.
  split; [|reflexivity].
  apply (unknown_compression_is_none 0 1 snappy_stub Mem.store (config_of 0 7));
    vm_compute; discriminate.
Defined.

End Runs.

(** ** What a pass logs *)

Lemma deferred_app (l1 l2 : list event) : deferred (l1 ++ l2) = deferred l1 ++ deferred l2.
Proof. apply omap_app. Qed.

Lemma timers_app (l1 l2 : list event) : timers (l1 ++ l2) = timers l1 ++ timers l2.
Proof. apply omap_app. Qed.

Lemma deferred_deferred (l : list Z) : deferred (map EvDeferredClose l) = l.
Proof.
  unfold deferred. induction l as [|z l IH]; [reflexivity|].
  cbn. now rewrite IH.
Qed.

Lemma timers_deferred (l : list Z) : timers (map EvDeferredClose l) = [].
Proof. induction l; [reflexivity|assumption]. Qed.

Section PassEvents.

Context {W : Type}.
Variable mq : MessageSource W.
Variable ctx : CancelContext W.
Variable handler : ConsumerMessageHandler W.

Local Abbreviation step := (step mq ctx handler).
Local Abbreviation run := (run mq ctx handler).
Local Abbreviation events := (pass_events (path mq) (pollPeriod mq)).

(** Every pass of a running source logs one of the five things of
    [pass_events], and a pass that returns logs the deferred closes
    after it. *)
Lemma step_events (c : config W) (seq : Z) :
  current (pc c) = Some seq ->
  exists evs, events seq evs /\
    log (step c) =
      log c ++ evs ++
      (if returned (step c) is Some _ then map EvDeferredClose (defers c) else []).
Proof.
  intros Hcur. destruct (pc c) as [s|s rc|s rc|err] eqn:Hpc; inversion Hcur; subst s.
  - rewrite (step_WaitLoop mq ctx handler c seq Hpc). unfold waitLoop.
    destruct (OpenReadCloser _ _ _) as [[rc|err] w].
    + eexists. split; [apply PassOpen|]. cbn; rewrite ?app_nil_r; reflexivity.
    + destruct (negb (IsNotExist err)).
      * eexists. split; [apply PassOpen|]. reflexivity.
      * destruct (Select ctx (pollPeriod mq) w) as [[|] w'].
        -- destruct (decide _); (eexists; split; [apply PassPoll|reflexivity]).
        -- eexists. split; [apply PassPoll|]. cbn; rewrite ?app_nil_r; reflexivity.
  - rewrite (step_ReadLoop mq ctx handler c seq rc Hpc).
    destruct (ReadFull rc 4) as [[lenBytes|err] rc1] eqn:Hlen.
    + destruct (Z.eq_dec (Uint32 lenBytes) 0) as [Hz|Hnz].
      * rewrite (readLoop_end_marker handler c seq rc rc1 lenBytes Hlen Hz).
        destruct (Read rc1 1) as [[buf err] rc2]. destruct (decide _).
        -- exists []. split; [apply PassSilent|reflexivity].
        -- exists []. split; [apply PassSilent|]. cbn; rewrite ?app_nil_r; reflexivity.
      * rewrite (readLoop_payload handler c seq rc rc1 lenBytes Hlen Hnz).
        destruct (ReadFull rc1 _) as [[buf|err] rc2] eqn:Hbuf.
        -- assert (Hfr : framable buf).
           { destruct (read_frame _ _ _ _ _ Hlen Hbuf) as (_ & _ & Hbl & _).
             pose proof (Uint32_range lenBytes). unfold framable. lia. }
           destruct (handler buf (world c)) as [[err|] w].
           ++ eexists. split; [apply (PassDeliver _ _ _ buf Hfr)|reflexivity].
           ++ eexists. split; [apply (PassDeliver _ _ _ buf Hfr)|]. cbn; rewrite ?app_nil_r; reflexivity.
        -- exists []. split; [apply PassSilent|reflexivity].
    + unfold readLoop. rewrite Hlen. exists []. split; [apply PassSilent|reflexivity].
  - rewrite (step_Exhausted mq ctx handler c seq rc Hpc). unfold closeSegment.
    destruct (Close rc).
    + eexists. split; [apply PassClose|reflexivity].
    + eexists. split; [apply PassClose|]. cbn; rewrite ?app_nil_r; reflexivity.
Qed.

End PassEvents.

(** ** What the handler and the timers are given *)

Lemma handled_events (root : string) (period : Duration) (seq : Z) (evs : list event) :
  pass_events root period seq evs -> Forall framable (handled evs).
Proof.
  intros [| | |buf Hbuf|]; cbn; try constructor; try assumption; constructor.
Qed.

Lemma timers_events (root : string) (period : Duration) (seq : Z) (evs : list event) :
  pass_events root period seq evs -> Forall (fun d => d = period) (timers evs).
Proof.
  intros [| | |buf Hbuf|]; cbn; repeat constructor.
Qed.

Section Given.

Context {W : Type}.
Variable mq : MessageSource W.
Variable ctx : CancelContext W.
Variable handler : ConsumerMessageHandler W.

Local Abbreviation step := (step mq ctx handler).
Local Abbreviation run := (run mq ctx handler).

(** What a pass adds to the handled messages and to the timers. *)
Lemma step_given (c : config W) :
  exists evs ds,
    log (step c) = log c ++ evs ++ map EvDeferredClose ds /\
    Forall framable (handled evs) /\
    Forall (fun d => d = pollPeriod mq) (timers evs).
Proof.
  destruct (current (pc c)) as [seq|] eqn:Hcur.
  - destruct (step_events mq ctx handler c seq Hcur) as (evs & Hev & Hlog).
    exists evs, (if returned (step c) is Some _ then defers c else []).
    split; [|split].
    + rewrite Hlog. destruct (returned (step c)); reflexivity.
    + eapply handled_events, Hev.
    + eapply timers_events, Hev.
  - destruct (pc c) as [s|s rc|s rc|err] eqn:Hpc; try discriminate.
    rewrite (step_Return mq ctx handler c err Hpc).
    exists [], []. cbn. rewrite app_nil_r. repeat constructor.
Qed.

Lemma run_timers (n : nat) (w : W) :
  Forall (fun d => d = pollPeriod mq) (timers (log (run n (start w)))).
Proof.
  induction n as [|n IH]; [constructor|].
  rewrite run_S. destruct (step_given (run n (start w))) as (evs & ds & -> & _ & Ht).
  rewrite !timers_app, timers_deferred, app_nil_r. apply Forall_app. now split.
Qed.

(** X6.  The handler is never given an empty message, nor one of 2^32 bytes
    or more: in every log of [ConsumeMessages] the handled messages are
    framable. *)
Theorem handler_messages_framable (n : nat) (w : W) :
  Forall framable (handled (log (run n (start w)))).
Proof.
  induction n as [|n IH]; [constructor|].
  rewrite run_S. destruct (step_given (run n (start w))) as (evs & ds & -> & Hh & _).
  rewrite !handled_app, handled_deferred, app_nil_r. apply Forall_app. now split.
Qed.

End Given.

Section Cancellation.

Context {W : Type}.
Variable mq : MessageSource W.
Variable handler : ConsumerMessageHandler W.

(** A pass that arms no timer does not look at the context. *)
Lemma step_without_timer (ctx1 ctx2 : CancelContext W) (c : config W) :
  timers (log (step mq ctx1 handler c)) = timers (log c) ->
  step mq ctx2 handler c = step mq ctx1 handler c.
Proof.
  intros Ht. destruct (pc c) as [s|s rc|s rc|err] eqn:Hpc.
  - rewrite (step_WaitLoop mq ctx1 handler c s Hpc) in *.
    rewrite (step_WaitLoop mq ctx2 handler c s Hpc).
    unfold waitLoop in *.
    destruct (OpenReadCloser _ _ _) as [[rc|err] w]; [reflexivity|].
    destruct (negb (IsNotExist err)); [reflexivity|].
    exfalso.
    assert (Hno : forall l, timers (log c ++ poll_events mq s ++ l) <> timers (log c)).
    { intros l H. rewrite timers_app in H.
      apply (f_equal length) in H. rewrite length_app in H. cbn in H. lia. }
    destruct (Select ctx1 (pollPeriod mq) w) as [[|] w'].
    + destruct (decide _); eapply Hno, Ht.
    + cbn [log goto] in Ht. apply (Hno []). now rewrite app_nil_r.
  - now rewrite (step_ReadLoop mq ctx1 handler c s rc Hpc),
                (step_ReadLoop mq ctx2 handler c s rc Hpc).
  - now rewrite (step_Exhausted mq ctx1 handler c s rc Hpc),
                (step_Exhausted mq ctx2 handler c s rc Hpc).
  - now rewrite (step_Return mq ctx1 handler c err Hpc),
                (step_Return mq ctx2 handler c err Hpc).
Qed.

(** X9.  Cancellation is looked at in the wait after a missing segment and
    nowhere else: as long as [ConsumeMessages] has armed no timer, it
    has done the same under any other context, one already cancelled
    included. *)
Theorem cancellation_unobserved_without_wait (ctx1 ctx2 : CancelContext W)
    (n : nat) (w : W) :
  timers (log (run mq ctx1 handler n (start w))) = [] ->
  run mq ctx2 handler n (start w) = run mq ctx1 handler n (start w).
Proof.
  induction n as [|n IH]; intros Ht; [reflexivity|].
  rewrite !run_S in *.
  destruct (step_given mq ctx1 handler (run mq ctx1 handler n (start w)))
    as (evs & ds & Hlog & _ & _).
  assert (H0 : timers (log (run mq ctx1 handler n (start w))) = []).
  { rewrite Hlog, timers_app in Ht. now apply app_eq_nil in Ht as [? _]. }
  rewrite (IH H0). apply step_without_timer. now rewrite Ht, H0.
Qed.

End Cancellation.

(** ** The deferred closes *)

Lemma deferred_events (root : string) (period : Duration) (seq : Z) (evs : list event) :
  pass_events root period seq evs -> deferred evs = [].
Proof. intros [| | |buf Hbuf|]; reflexivity. Qed.

Lemma upto_to_nat_succ (s : Z) :
  0 <= s -> upto (Z.to_nat (s + 1)) = upto (Z.to_nat s) ++ [s].
Proof.
  intros Hs. replace (Z.to_nat (s + 1)) with (S (Z.to_nat s)) by lia.
  rewrite upto_S. f_equal. f_equal. lia.
Qed.

Section Deferred.

Context {W : Type}.
Variable mq : MessageSource W.
Variable ctx : CancelContext W.
Variable handler : ConsumerMessageHandler W.

Local Abbreviation step := (step mq ctx handler).
Local Abbreviation run := (run mq ctx handler).

(** While the source runs no deferred func has run; the segments before
    the current one have been closed at line 105, and the deferred
    funcs hold their readers and, past the wait loop, the reader in
    use. *)
Lemma defers_step (c : config W) (s s' : Z) :
  0 <= s < 2 ^ 63 - 1 ->
  current (pc c) = Some s ->
  current (pc (step c)) = Some s' ->
  closed (log c) = upto (Z.to_nat s) /\ deferred (log c) = [] /\
  defers c = (if pc c is WaitLoop _ then [] else [s]) ++ rev (upto (Z.to_nat s)) ->
  s <= s' <= s + 1 /\
  closed (log (step c)) = upto (Z.to_nat s') /\ deferred (log (step c)) = [] /\
  defers (step c) =
    (if pc (step c) is WaitLoop _ then [] else [s']) ++ rev (upto (Z.to_nat s')).
Proof.
  intros Hs Hcur Hnext (Hcl & Hdf & Hds).
  destruct (pc c) as [s0|s0 rc|s0 rc|err] eqn:Hpc; inversion Hcur; subst s0.
  - rewrite (step_WaitLoop mq ctx handler c s Hpc) in *. unfold waitLoop in *.
    destruct (OpenReadCloser _ _ _) as [[rc|err] w].
    + cbn in Hnext. inversion Hnext; subst s'. cbn [pc log defers].
      rewrite closed_app, deferred_app, Hcl, Hdf, Hds. cbn.
      rewrite app_nil_r. auto with lia.
    + destruct (negb (IsNotExist err)); [discriminate|].
      destruct (Select ctx (pollPeriod mq) w) as [[|] w'].
      * destruct (decide _); discriminate.
      * cbn in Hnext. inversion Hnext; subst s'. cbn [pc log defers goto].
        rewrite closed_app, deferred_app, Hcl, Hdf, Hds. cbn.
        rewrite app_nil_r. auto with lia.
  - rewrite (step_ReadLoop mq ctx handler c s rc Hpc) in *. unfold readLoop in *.
    destruct (ReadFull rc 4) as [[lenBytes|err] rc1]; [|discriminate].
    destruct (_ =? 0).
    + destruct (Read rc1 1) as [[buf err] rc2].
      destruct (decide _); [discriminate|].
      cbn in Hnext. inversion Hnext; subst s'. cbn [pc log defers goto].
      rewrite app_nil_r, Hcl, Hdf, Hds. auto with lia.
    + destruct (ReadFull rc1 _) as [[buf|err] rc2]; [|discriminate].
      destruct (handler buf (world c)) as [[err|] w]; [discriminate|].
      cbn in Hnext. inversion Hnext; subst s'. cbn [pc log defers goto].
      rewrite closed_app, deferred_app, Hcl, Hdf, Hds. cbn.
      rewrite app_nil_r. auto with lia.
  - rewrite (step_Exhausted mq ctx handler c s rc Hpc) in *. unfold closeSegment in *.
    destruct (Close rc); [discriminate|].
    cbn in Hnext. inversion Hnext; subst s'. cbn [pc log defers goto].
    rewrite wrapInt_small by lia.
    rewrite closed_app, deferred_app, Hcl, Hdf, Hds, upto_to_nat_succ by lia. cbn.
    rewrite rev_app_distr. cbn. auto with lia.
Qed.

Lemma defers_run (n : nat) (w : W) (s : Z) :
  Z.of_nat n < 2 ^ 63 ->
  current (pc (run n (start w))) = Some s ->
  0 <= s <= Z.of_nat n /\
  closed (log (run n (start w))) = upto (Z.to_nat s) /\
  deferred (log (run n (start w))) = [] /\
  defers (run n (start w)) =
    (if pc (run n (start w)) is WaitLoop _ then [] else [s]) ++ rev (upto (Z.to_nat s)).
Proof.
  revert s. induction n as [|n IH]; intros s Hn Hcur.
  - cbn in Hcur. inversion Hcur; subst. cbn. auto with lia.
  - rewrite run_S in *.
    destruct (current (pc (run n (start w)))) as [s0|] eqn:Hprev.
    + destruct (IH s0 ltac:(lia) eq_refl) as (Hr & Hinv).
      destruct (defers_step _ s0 s ltac:(lia) Hprev Hcur Hinv) as (Hle & Hrest).
      split; [lia|exact Hrest].
    + destruct (pc (run n (start w))) as [?|? ?|? ?|err] eqn:Hpc; try discriminate.
      rewrite (step_Return mq ctx handler _ err Hpc), Hpc in Hcur. discriminate.
Qed.

(** X5.  When the pass at segment [s] returns, the deferred funcs close the
    reader in use, if the wait loop was passed, and then the readers of
    the segments [s-1], ..., [0], each of which line 105 had closed
    already: on every return every drained reader is closed a second
    time. *)
Theorem deferred_closes_on_return (n : nat) (w : W) (s : Z) :
  Z.of_nat n < 2 ^ 63 ->
  current (pc (run n (start w))) = Some s ->
  returned (run (S n) (start w)) <> None ->
  closed (log (run n (start w))) = upto (Z.to_nat s) /\
  deferred (log (run n (start w))) = [] /\
  deferred (log (run (S n) (start w))) =
    (if pc (run n (start w)) is WaitLoop _ then [] else [s]) ++
    rev (upto (Z.to_nat s)).
Proof.
  intros Hn Hcur Hret.
  destruct (defers_run n w s Hn Hcur) as (_ & Hcl & Hdf & Hds).
  split; [exact Hcl|]. split; [exact Hdf|].
  rewrite run_S in *.
  destruct (step_events mq ctx handler _ s Hcur) as (evs & Hev & Hlog).
  rewrite Hlog, !deferred_app, Hdf, (deferred_events _ _ _ _ Hev).
  destruct (returned (step (run n (start w)))); [|contradiction].
  now rewrite deferred_deferred, Hds.
Qed.

End Deferred.

(** ** The read loop ends *)

Section Progress.

Context {W : Type}.
Variable mq : MessageSource W.
Variable ctx : CancelContext W.
Variable handler : ConsumerMessageHandler W.

Local Abbreviation step := (step mq ctx handler).
Local Abbreviation run := (run mq ctx handler).

(** A pass of the read loop returns, leaves the loop, or has taken at
    least five bytes from the reader. *)
Lemma readLoop_progress (c : config W) (seq : Z) (rc : ReadCloser) :
  pc c = ReadLoop seq rc ->
  (exists r, pc (step c) = Return r) \/
  (exists rc2, pc (step c) = Exhausted seq rc2) \/
  (exists rc2, pc (step c) = ReadLoop seq rc2 /\
     (length (stream (script rc2)) + 5 <= length (stream (script rc)))%nat).
Proof.
  intros Hpc. rewrite (step_ReadLoop mq ctx handler c seq rc Hpc).
  destruct (ReadFull rc 4) as [[lenBytes|err] rc1] eqn:Hlen.
  - destruct (Z.eq_dec (Uint32 lenBytes) 0) as [Hz|Hnz].
    + rewrite (readLoop_end_marker handler c seq rc rc1 lenBytes Hlen Hz).
      destruct (Read rc1 1) as [[buf err] rc2].
      destruct (decide _); [left|right; left]; eexists; reflexivity.
    + rewrite (readLoop_payload handler c seq rc rc1 lenBytes Hlen Hnz).
      destruct (ReadFull rc1 _) as [[buf|err] rc2] eqn:Hbuf;
        [|left; eexists; reflexivity].
      destruct (handler buf (world c)) as [[err|] w]; [left; eexists; reflexivity|].
      right; right. exists rc2. split; [reflexivity|].
      destruct (read_frame _ _ _ _ _ Hlen Hbuf) as (Hl4 & Htake & Hbl & Hbt & Hrest).
      pose proof (Uint32_range lenBytes).
      apply (f_equal length) in Htake, Hbt.
      rewrite length_take in Htake, Hbt. rewrite length_drop in Hbt.
      rewrite Hrest, !length_drop. lia.
  - unfold readLoop. rewrite Hlen. left. eexists. reflexivity.
Qed.

Lemma read_loop_bounded (m : nat) : forall (c : config W) seq rc,
  pc c = ReadLoop seq rc ->
  (length (stream (script rc)) < 5 * m)%nat ->
  exists n, (n <= m)%nat /\
    ((exists r, pc (run n c) = Return r) \/
     (exists rc', pc (run n c) = Exhausted seq rc')).
Proof.
  induction m as [|m IH]; intros c seq rc Hpc Hlen; [lia|].
  destruct (readLoop_progress c seq rc Hpc) as [Hr|[Hx|(rc2 & Hpc2 & Hless)]].
  - exists 1%nat. split; [lia|]. left. now rewrite run_1.
  - exists 1%nat. split; [lia|]. right. now rewrite run_1.
  - destruct (IH (step c) seq rc2 Hpc2 ltac:(lia)) as (n & Hn & Hend).
    exists (S n). split; [lia|]. now rewrite run_succ.
Qed.

(** X8.  The read loop cannot go on for ever over a reader that hands out
    finitely many bytes: every pass that stays in the loop has used up
    a frame of five bytes or more, so after at most one pass per five
    bytes and one more the segment is exhausted or [ConsumeMessages] has
    returned. *)
Theorem read_loop_ends (c : config W) (seq : Z) (rc : ReadCloser) :
  pc c = ReadLoop seq rc ->
  exists n, (n <= length (stream (script rc)) / 5 + 1)%nat /\
    ((exists r, pc (run n c) = Return r) \/
     (exists rc', pc (run n c) = Exhausted seq rc')).
Proof.
  intros Hpc. apply (read_loop_bounded _ c seq rc Hpc).
  pose proof (Nat.div_mod_eq (length (stream (script rc))) 5).
  pose proof (Nat.mod_upper_bound (length (stream (script rc))) 5). lia.
Qed.

End Progress.

(** ** Waiting for a segment *)

Lemma timers_segment (seq : Z) (fullname : string) (msgs : list (list byte)) :
  timers ([EvOpen seq fullname] ++ map (EvHandler seq) msgs ++ [EvClose seq]) = [].
Proof.
  cbn [app]. change (timers (EvOpen seq fullname :: ?l)) with (timers l).
  rewrite timers_app, app_nil_r.
  induction msgs as [|m msgs IH]; [reflexivity|exact IH].
Qed.

Section Waiting.

Context {W : Type}.
Variable mq : MessageSource W.
Variable ctx : CancelContext W.
Variable handler : ConsumerMessageHandler W.

Local Abbreviation step := (step mq ctx handler).
Local Abbreviation run := (run mq ctx handler).

(** [k] polls that find nothing and are not cancelled. *)
Lemma poll_run (k : nat) : forall (c : config W) (seq : Z),
  pc c = WaitLoop seq ->
  (forall i, (i < k)%nat ->
     exists e w1 w2,
       OpenReadCloser (streamstore mq) (seqToPath (path mq) seq)
         (after_polls mq ctx seq i (world c)) = (inr e, w1) /\
       IsNotExist e = true /\
       Select ctx (pollPeriod mq) w1 = (TimerC, w2)) ->
  run k c =
    {| pc := WaitLoop seq; world := after_polls mq ctx seq k (world c);
       defers := defers c;
       log := log c ++ concat (replicate k (poll_events mq seq)) |}.
Proof.
  induction k as [|k IH]; intros c seq Hpc Hpoll.
  - cbn. rewrite app_nil_r. destruct c; cbn in *; now subst.
  - rewrite run_succ.
    destruct (Hpoll 0%nat ltac:(lia)) as (e & w1 & w2 & Hopen & Hne & Hsel).
    cbn [after_polls] in Hopen.
    assert (Hs : step c = goto c (WaitLoop seq) w2 (poll_events mq seq)).
    { rewrite (step_WaitLoop mq ctx handler c seq Hpc). unfold waitLoop.
      now rewrite Hopen, Hne, Hsel. }
    assert (Hw : poll_once mq ctx seq (world c) = w2).
    { unfold poll_once. rewrite Hopen. cbn [snd]. now rewrite Hsel. }
    rewrite (IH (step c) seq).
    + rewrite Hs. cbn [world defers log goto after_polls replicate concat].
      now rewrite Hw, <- app_assoc.
    + now rewrite Hs.
    + intros i Hi. specialize (Hpoll (S i) ltac:(lia)).
      cbn [after_polls] in Hpoll. now rewrite Hs, <- Hw.
Qed.

(** X3.  While the segment is not there and the timer wins the race, the
    source neither returns nor calls the handler: each pass is one
    [OpenReadCloser] of the same path and one timer of the poll
    period. *)
Theorem waits_while_missing (k : nat) (c : config W) (seq : Z) :
  pc c = WaitLoop seq ->
  (forall i, (i < k)%nat ->
     exists e w1 w2,
       OpenReadCloser (streamstore mq) (seqToPath (path mq) seq)
         (after_polls mq ctx seq i (world c)) = (inr e, w1) /\
       IsNotExist e = true /\
       Select ctx (pollPeriod mq) w1 = (TimerC, w2)) ->
  pc (run k c) = WaitLoop seq /\
  log (run k c) =
    log c ++ concat (replicate k [EvOpen seq (seqToPath (path mq) seq);
                                  EvTimer (pollPeriod mq)]) /\
  handled (log (run k c)) = handled (log c) /\
  world (run k c) = after_polls mq ctx seq k (world c).
Proof.
  intros Hpc Hpoll. rewrite (poll_run k c seq Hpc Hpoll). cbn [pc log world].
  split; [reflexivity|]. split; [reflexivity|]. split; [|reflexivity].
  rewrite handled_app.
  replace (handled (concat (replicate k (poll_events mq seq)))) with (@nil (list byte));
    [now rewrite app_nil_r|].
  induction k as [|k IH]; [reflexivity|].
  - cbn [replicate concat]. rewrite handled_app. cbn. apply IH.
    intros i Hi. apply Hpoll. lia.
Qed.


End Waiting.

(** ** Damaged segments *)

Lemma handled_deliveries (seq : Z) (msgs : list (list byte)) :
  handled (map (EvHandler seq) msgs) = msgs.
Proof.
  induction msgs as [|m msgs IH]; [reflexivity|].
  cbn [map]. change (handled (EvHandler seq m :: ?l)) with (m :: handled l).
  now rewrite IH.
Qed.

Lemma closed_deliveries (seq : Z) (msgs : list (list byte)) :
  closed (map (EvHandler seq) msgs) = [].
Proof. induction msgs as [|m msgs IH]; [reflexivity|exact IH]. Qed.

Section Damaged.

Context {W : Type}.
Variable mq : MessageSource W.
Variable ctx : CancelContext W.
Variable handler : ConsumerMessageHandler W.

Local Abbreviation step := (step mq ctx handler).
Local Abbreviation run := (run mq ctx handler).

(** The pass over what is left of a frame that was cut short. *)
Lemma step_cut_frame (c : config W) (seq : Z) (m : list byte) (i : nat)
    (ce : option error) :
  pc c = ReadLoop seq (set_close (bytesReader (take i (frame m))) ce) ->
  Z.of_nat (length m) < 2 ^ 32 ->
  (i < length (frame m))%nat ->
  step c =
    return_ c (Some (Errorf
      (if (i =? 0)%nat then "Could not read length (EOF)"
       else if (i <? 4)%nat then "Could not read length (unexpected EOF)"
       else if (i =? 4)%nat then "Could not read payload (EOF)"
       else "Could not read payload (unexpected EOF)"))) (world c) [].
Proof.
  intros Hpc Hm Hi. unfold frame in *. rewrite length_app, length_PutUint32 in Hi.
  rewrite (step_ReadLoop mq ctx handler c seq _ Hpc).
  destruct (Nat.ltb_spec i 4) as [Hlt|Hge].
  - assert (Hl : length (take i (PutUint32 (Z.of_nat (length m)) ++ m)) = i)
      by (rewrite length_take, length_app, length_PutUint32; lia).
    unfold readLoop. rewrite ReadFull_bytesReader_short by lia.
    destruct (take i _) as [|b l] eqn:Ht; cbn in Hl; subst i; reflexivity.
  - rewrite take_app_ge by (rewrite length_PutUint32; lia).
    rewrite length_PutUint32.
    assert (Hlen : ReadFull (set_close (bytesReader
                      (PutUint32 (Z.of_nat (length m)) ++ take (i - 4) m)) ce) 4 =
              (inl (PutUint32 (Z.of_nat (length m))),
               set_close (bytesReader (take (i - 4) m)) ce)).
    { rewrite ReadFull_bytesReader by (rewrite length_app, length_PutUint32; lia).
      rewrite (take_app_length' (PutUint32 _)), (drop_app_length' (PutUint32 _))
        by reflexivity.
      reflexivity. }
    rewrite (readLoop_payload handler c seq _ _ _ Hlen)
      by (rewrite Uint32_PutUint32; lia).
    rewrite Uint32_PutUint32, Nat2Z.id by lia.
    assert (Hl : length (take (i - 4) m) = (i - 4)%nat)
      by (rewrite length_take; lia).
    rewrite ReadFull_bytesReader_short by lia.
    destruct (Nat.eqb_spec i 0); [lia|].
    destruct (take (i - 4) m) as [|b l] eqn:Ht; cbn in Hl.
    + destruct (Nat.eqb_spec i 4); [reflexivity|lia].
    + destruct (Nat.eqb_spec i 4); [lia|reflexivity].
Qed.

(** X10.  A segment that stops short, at a frame boundary without end marker
    (as a segment still being written does), inside a length, or inside
    a payload or the end marker, is a fatal error and not a reason to
    wait: the whole frames before the cut are delivered, then
    [ConsumeMessages] returns the decoding error. *)
Theorem cut_segment_fails (msgs : list (list byte)) (m : list byte) (i : nat)
    (c : config W) (seq : Z) (ce : option error) :
  Forall framable msgs ->
  Z.of_nat (length m) < 2 ^ 32 ->
  (i < length (frame m))%nat ->
  (forall m w, (handler m w).1 = None) ->
  pc c = ReadLoop seq
           (set_close (bytesReader (concat (map frame msgs) ++ take i (frame m))) ce) ->
  handled (log (run (length msgs + 1) c)) = handled (log c) ++ msgs /\
  returned (run (length msgs + 1) c) =
    Some (Some (Errorf
      (if (i =? 0)%nat then "Could not read length (EOF)"
       else if (i <? 4)%nat then "Could not read length (unexpected EOF)"
       else if (i =? 4)%nat then "Could not read payload (EOF)"
       else "Could not read payload (unexpected EOF)"))).
Proof.
  intros Hfr Hm Hi Hacc Hpc.
  destruct (drain_frames mq ctx handler (fun _ => True) msgs c seq _ ce Hfr
              (fun m w _ => conj (Hacc m w) I) I Hpc) as (H1 & H2 & _).
  rewrite run_add, run_1, (step_cut_frame _ seq m i ce H1 Hm Hi).
  cbn [log return_ returned pc]. split; [|reflexivity].
  now rewrite H2, !handled_app, handled_deferred, handled_deliveries, !app_nil_r.
Qed.


End Damaged.

(** ** A source as constructed *)

Section Constructed.

Context {W CompressionType : Type} `{EqDecision CompressionType}.
Variable CompressionTypeNone : CompressionType.
Variable CompressionTypeSnappy : CompressionType.
Variable newSnappyStreamStore : StreamStore W -> StreamStore W.

Local Abbreviation New :=
  (NewMessageSource CompressionTypeNone CompressionTypeSnappy newSnappyStreamStore).

(** X7.  Whatever the config, [ConsumeMessages] on the source that
    [NewMessageSource] builds never arms a timer of zero duration:
    every timer lasts the [PollPeriod] of the config, or 5 seconds when
    that is zero. *)
Theorem constructed_source_timers (store : StreamStore W)
    (config : MessageSourceConfig CompressionType) (ctx : CancelContext W)
    (handler : ConsumerMessageHandler W) (n : nat) (w : W) :
  Forall (fun d => d <> 0 /\
                   d = if PollPeriod config =? 0 then 5 * Second else PollPeriod config)
    (timers (log (run (New store config) ctx handler n (start w)))).
Proof.
  eapply Forall_impl; [apply run_timers|].
  intros d ->. unfold NewMessageSource. cbn [pollPeriod].
  destruct (Z.eqb_spec (PollPeriod config) 0); cbn [pollPeriod set_pollPeriod].
  - split; [discriminate|reflexivity].
  - split; [assumption|reflexivity].
Qed.

End Constructed.

(** ** More runs on concrete environments *)

Section MoreRuns.

Import Examples.

Local Abbreviation accept := (Mem.handler Mem.accept).
Local Abbreviation stepM := (step source Mem.ctx accept).
Local Abbreviation runM := (run source Mem.ctx accept).

Lemma accept_as_written (m : list byte) (w : Mem.world) :
  as_written w -> (accept m w).1 = None /\ as_written (accept m w).2.
Proof. intros H. split; [reflexivity|exact H]. Qed.

Lemma open_as_written (j : nat) (msgs : list (list byte)) (w : Mem.world) :
  two_segments !! j = Some msgs -> as_written w ->
  OpenReadCloser (streamstore source) (seqToPath (path source) (Z.of_nat j)) w =
    (inl (bytesReader (segment msgs)), w).
Proof.
  intros Hj (Hf & Hfa & Hc).
  unfold source, Mem.source, Mem.store. cbn [streamstore OpenReadCloser path].
  rewrite Hfa, Hf, Hc, lookup_empty.
  destruct j as [|[|j]]; inversion Hj; subst; vm_compute; reflexivity.
Qed.

Lemma drains_then_stops_witness :
  exists fuel,
    ConsumeMessages source Mem.ctx accept fuel (written 0 Canceled) = Some None /\
    handled (log (runM fuel (start (written 0 Canceled)))) =
      [[x01; x02]; [x03]; [x04]] /\
    closed (log (runM fuel (start (written 0 Canceled)))) = [0; 1].
Proof.
  apply (drains_then_stops source Mem.ctx accept as_written_done two_segments
           (written 0 Canceled)).
  - repeat apply conj; reflexivity.
  - intros j msgs w Hj (Hw & Hp & Hc). exists w.
    split; [now apply open_as_written|exact (conj Hw (conj Hp Hc))].
  - intros w ((Hf & Hfa & Hcl) & Hp & Hc).
    exists (PathError "open" (seqToPath root 2) ErrNotExist), w, w.
    unfold source, Mem.source, Mem.store, Mem.ctx.
    cbn [streamstore OpenReadCloser path Select Err pollPeriod].
    rewrite Hfa, Hf, Hp, Hc, lookup_empty.
    repeat apply conj; try (vm_compute; reflexivity). right. reflexivity.
  - repeat constructor; vm_compute; repeat apply conj; congruence.
  - intros m w (Hw & Hp & Hc). split; [reflexivity|exact (conj Hw (conj Hp Hc))].
  - vm_compute. discriminate.
Defined.

Lemma waits_while_missing_witness :
  pc (runM 3 (start (empty 3 Canceled))) = WaitLoop 0 /\
  log (runM 3 (start (empty 3 Canceled))) =
    [EvOpen 0 (seqToPath root 0); EvTimer (5 * Second);
     EvOpen 0 (seqToPath root 0); EvTimer (5 * Second);
     EvOpen 0 (seqToPath root 0); EvTimer (5 * Second)].
Proof.
  destruct (waits_while_missing source Mem.ctx accept 3 (start (empty 3 Canceled)) 0
              eq_refl) as (H1 & H2 & _).
  - intros i Hi.
    exists (PathError "open" (seqToPath root 0) ErrNotExist).
    destruct i as [|[|[|i]]]; [| | |lia];
      eexists; eexists; repeat apply conj; vm_compute; reflexivity.
  - split; [exact H1|exact H2].
Defined.


Lemma deferred_closes_on_return_witness :
  closed (log (runM 11 (start (written 2 DeadlineExceeded)))) = [0; 1] /\
  deferred (log (runM 11 (start (written 2 DeadlineExceeded)))) = [] /\
  deferred (log (runM 12 (start (written 2 DeadlineExceeded)))) = [1; 0].
Proof.
  apply (deferred_closes_on_return source Mem.ctx accept 11
           (written 2 DeadlineExceeded) 2).
  - vm_compute. reflexivity.
  - vm_compute. reflexivity.
  - vm_compute. discriminate.
Defined.

Lemma read_loop_ends_witness :
  exists n, (n <= 9 / 5 + 1)%nat /\
    ((exists r, pc (runM n (reading (segment [[x01]]) (empty 0 Canceled))) = Return r) \/
     (exists rc', pc (runM n (reading (segment [[x01]]) (empty 0 Canceled))) =
                    Exhausted 0 rc')).
Proof.
  apply (read_loop_ends source Mem.ctx accept
           (reading (segment [[x01]]) (empty 0 Canceled)) 0
           (bytesReader (segment [[x01]]))).
  reflexivity.
Defined.

Lemma cancellation_unobserved_without_wait_witness :
  run source done_ctx accept 7 (start (written 3 Canceled)) =
  run source Mem.ctx accept 7 (start (written 3 Canceled)).
Proof.
  apply (cancellation_unobserved_without_wait source accept Mem.ctx done_ctx 7
           (written 3 Canceled)).
  vm_compute. reflexivity.
Defined.

Lemma cut_segment_fails_witness :
  let c := reading (concat (map frame [[x01; x02]]) ++ take 5 (frame [x03; x04]))
             (empty 0 Canceled) in
  handled (log (runM (1 + 1) c)) = handled (log c) ++ [[x01; x02]] /\
  returned (runM (1 + 1) c) =
    Some (Some (Errorf "Could not read payload (unexpected EOF)")).
Proof.
  intros c.
  apply (cut_segment_fails source Mem.ctx accept [[x01; x02]] [x03; x04] 5 c 0 None).
  - repeat constructor; vm_compute; congruence.
  - vm_compute. reflexivity.
  - vm_compute. lia.
  - reflexivity.
  - reflexivity.
Defined.


End MoreRuns.
